(** * Twilio <-> Deepgram voice-agent relay: a shallow embedding

    The development follows [src/twilio_realtime/routes/deepgram_demo.py]
    and [src/twilio_realtime/models/connection_store.py].

    Modelling conventions.
    - The per-call dictionary [connection_state] is a record; the handles it
      carries ([deepgram_ws], [audio_queue], [tasks]) are represented by the
      effects issued on them, collected in order in an output trace.
    - JSON text frames are given by what [json.loads] and the field accesses
      of the code make of them: a parse failure, or the fields the code
      reads, each optional where the code may find the key absent.
    - [base64.b64decode] is library code: a media payload is given decoded
      ([None] when the key is absent or decoding raises).
    - Wall-clock readings ([time.time()]) stored with transcript messages are
      left out; waiting times on the telephony socket are integers
      (milliseconds).
    - A handler runs without interleaving of the two other tasks, and the
      transports accept every message that is sent. *)

From Stdlib Require Import ZArith Lia Ascii String.
From stdpp Require Import base list strings gmap.
From Equations Require Import Equations.

Local Open Scope string_scope.
Local Open Scope Z_scope.
Local Open Scope list_scope.

Abbreviation bytes := (list Byte.byte).

(** ** Python values the code tests for truth *)

Module Py.

(** [if x:] for a value that is [None] or a string. *)
Definition truthy (x : option string) : bool :=
  match x with
  | Some s => negb (String.eqb s "")
  | None => false
  end.

(** [a or b]. *)
Definition or_ (a b : option string) : option string :=
  if truthy a then a else b.

(** [str.lower()] on ASCII letters. *)
Definition lower_ascii (c : ascii) : ascii :=
  let n := nat_of_ascii c in
  if ((65 <=? n)%nat && (n <=? 90)%nat)%bool then ascii_of_nat (n + 32) else c.

Fixpoint lower (s : string) : string :=
  match s with
  | EmptyString => EmptyString
  | String c s' => String (lower_ascii c) (lower s')
  end.

(** [f"{x}"] for a value that is [None] or a string. *)
Definition fmt (x : option string) : string :=
  match x with
  | Some s => s
  | None => "None"
  end.

(** [list.pop(0)] on a non-empty list: the item removed and the rest. *)
Definition pop0 {A} (l : list A) : option (A * list A) :=
  match l with
  | [] => None
  | x :: l' => Some (x, l')
  end.

(** [list.append(x)]. *)
Definition append {A} (l : list A) (x : A) : list A := l ++ [x].

End Py.

(** ** connection_store.py *)

(** An entry of the registry is given here by its contents. The relay
    registers each call with a dict made for it ([handle_incoming_call]), so
    that no two ids hold one dict; what two ids that share a dict or a list
    see of each other is followed in [SharedStore] below, where the objects
    are kept by reference. *)

Record message := { role : string; content : string }.

Record connection_data := {
  phone : option string;
  messages : list message;
}.

Module ConnectionStore.

Definition add_connection (websocket_id : string) (data : connection_data)
    (connections : gmap string connection_data) : gmap string connection_data :=
  <[websocket_id := data]> connections.

Definition get_connection (websocket_id : string)
    (connections : gmap string connection_data) : option connection_data :=
  connections !! websocket_id.

(** [add_message]: nothing happens when the id is unknown. *)
Definition add_message (websocket_id : string) (r c : string)
    (connections : gmap string connection_data) : gmap string connection_data :=
  match get_connection websocket_id connections with
  | Some connection =>
      <[websocket_id :=
          {| phone := phone connection;
             messages := Py.append (messages connection)
                           {| role := r; content := c |} |}]> connections
  | None => connections
  end.

Definition get_messages (websocket_id : string)
    (connections : gmap string connection_data) : list message :=
  match get_connection websocket_id connections with
  | Some connection => messages connection
  | None => []
  end.

Definition remove_connection (websocket_id : string)
    (connections : gmap string connection_data) : gmap string connection_data :=
  delete websocket_id connections.

End ConnectionStore.

(** [connection_state["call_sid"]] may be [None]: the store is then asked for
    the key [None], which no call was registered under. *)
Definition lookup_call (call_sid : option string)
    (connections : gmap string connection_data) : option connection_data :=
  match call_sid with
  | Some sid => ConnectionStore.get_connection sid connections
  | None => None
  end.

(** ** Messages on the two sockets *)

(** [data["media"]["timestamp"]] as [int(...)] sees it. *)
Inductive timestamp_field :=
| TsAbsent              (* key absent: the default 0 *)
| TsValue (z : Z)       (* int(...) returns z *)
| TsInvalid.            (* int(...) raises *)

Record media_fields := {
  m_timestamp : timestamp_field;
  m_track : option string;
  m_payload : option bytes;    (* base64.b64decode(media["payload"]) *)
}.

Record start_fields := {
  s_streamSid : option string;
  s_callSid : option string;
}.

(** A parsed telephony message, by its ["event"]. *)
Inductive twilio_data :=
| EvMedia (media : option media_fields)
| EvStart (start : option start_fields)
| EvMark
| EvStop
| EvOther (event : string)     (* any other value of "event" *)
| EvNoEvent.                   (* no "event" key: data["event"] raises KeyError *)

Inductive twilio_text :=
| TwMalformed                  (* json.loads raises JSONDecodeError *)
| TwJson (data : twilio_data).

(** What a [receive_text()] on the telephony socket ends with. *)
Inductive ws_item :=
| WsText (message : twilio_text)
| WsDisconnect                 (* raises WebSocketDisconnect *)
| WsError.                     (* raises another exception *)

(** Messages sent to the telephony socket. *)
Inductive twilio_out :=
| OutMedia (streamSid : option string) (payload : bytes)   (* payload before base64 *)
| OutMark (streamSid : option string) (name : string)
| OutClear (streamSid : option string).

(** Messages sent to the agent socket. *)
Inductive deepgram_out :=
| OutAudio (frame : bytes)
| OutTruncate (item_id : option string) (content_index : Z) (audio_end_ms : Z).

Inductive effect :=
| AudioQueuePut (frame : bytes)        (* await audio_queue.put(frame) *)
| TwilioSend (m : twilio_out)          (* await websocket.send_json(m) *)
| DeepgramSend (m : deepgram_out)      (* await deepgram_ws.send(m) *)
| ProbeReceive.                        (* await websocket.receive_text(), no timeout *)

(** ** connection_state *)

Record connection_state := {
  call_sid : option string;
  caller_phone : string;
  stream_sid : option string;
  latest_media_timestamp : Z;
  mark_queue : list string;
  connection_active : bool;
  start_data : option twilio_data;
  speech_started : bool;
  last_assistant_item : option string;
  response_start_timestamp_twilio : option Z;
}.

(** The dictionary built at the top of [handle_media_stream]. *)
Definition initial_state : connection_state := {|
  call_sid := None;
  caller_phone := "Unknown";
  stream_sid := None;
  latest_media_timestamp := 0;
  mark_queue := [];
  connection_active := true;
  start_data := None;
  speech_started := false;
  last_assistant_item := None;
  response_start_timestamp_twilio := None;
|}.

Definition set_call_sid v st := {|
  call_sid := v; caller_phone := caller_phone st; stream_sid := stream_sid st;
  latest_media_timestamp := latest_media_timestamp st; mark_queue := mark_queue st;
  connection_active := connection_active st; start_data := start_data st;
  speech_started := speech_started st; last_assistant_item := last_assistant_item st;
  response_start_timestamp_twilio := response_start_timestamp_twilio st |}.

Definition set_caller_phone v st := {|
  call_sid := call_sid st; caller_phone := v; stream_sid := stream_sid st;
  latest_media_timestamp := latest_media_timestamp st; mark_queue := mark_queue st;
  connection_active := connection_active st; start_data := start_data st;
  speech_started := speech_started st; last_assistant_item := last_assistant_item st;
  response_start_timestamp_twilio := response_start_timestamp_twilio st |}.

Definition set_stream_sid v st := {|
  call_sid := call_sid st; caller_phone := caller_phone st; stream_sid := v;
  latest_media_timestamp := latest_media_timestamp st; mark_queue := mark_queue st;
  connection_active := connection_active st; start_data := start_data st;
  speech_started := speech_started st; last_assistant_item := last_assistant_item st;
  response_start_timestamp_twilio := response_start_timestamp_twilio st |}.

Definition set_latest_media_timestamp v st := {|
  call_sid := call_sid st; caller_phone := caller_phone st; stream_sid := stream_sid st;
  latest_media_timestamp := v; mark_queue := mark_queue st;
  connection_active := connection_active st; start_data := start_data st;
  speech_started := speech_started st; last_assistant_item := last_assistant_item st;
  response_start_timestamp_twilio := response_start_timestamp_twilio st |}.

Definition set_mark_queue v st := {|
  call_sid := call_sid st; caller_phone := caller_phone st; stream_sid := stream_sid st;
  latest_media_timestamp := latest_media_timestamp st; mark_queue := v;
  connection_active := connection_active st; start_data := start_data st;
  speech_started := speech_started st; last_assistant_item := last_assistant_item st;
  response_start_timestamp_twilio := response_start_timestamp_twilio st |}.

Definition set_connection_active v st := {|
  call_sid := call_sid st; caller_phone := caller_phone st; stream_sid := stream_sid st;
  latest_media_timestamp := latest_media_timestamp st; mark_queue := mark_queue st;
  connection_active := v; start_data := start_data st;
  speech_started := speech_started st; last_assistant_item := last_assistant_item st;
  response_start_timestamp_twilio := response_start_timestamp_twilio st |}.

Definition set_start_data v st := {|
  call_sid := call_sid st; caller_phone := caller_phone st; stream_sid := stream_sid st;
  latest_media_timestamp := latest_media_timestamp st; mark_queue := mark_queue st;
  connection_active := connection_active st; start_data := v;
  speech_started := speech_started st; last_assistant_item := last_assistant_item st;
  response_start_timestamp_twilio := response_start_timestamp_twilio st |}.

Definition set_speech_started v st := {|
  call_sid := call_sid st; caller_phone := caller_phone st; stream_sid := stream_sid st;
  latest_media_timestamp := latest_media_timestamp st; mark_queue := mark_queue st;
  connection_active := connection_active st; start_data := start_data st;
  speech_started := v; last_assistant_item := last_assistant_item st;
  response_start_timestamp_twilio := response_start_timestamp_twilio st |}.

Definition set_last_assistant_item v st := {|
  call_sid := call_sid st; caller_phone := caller_phone st; stream_sid := stream_sid st;
  latest_media_timestamp := latest_media_timestamp st; mark_queue := mark_queue st;
  connection_active := connection_active st; start_data := start_data st;
  speech_started := speech_started st; last_assistant_item := v;
  response_start_timestamp_twilio := response_start_timestamp_twilio st |}.

Definition set_response_start_timestamp_twilio v st := {|
  call_sid := call_sid st; caller_phone := caller_phone st; stream_sid := stream_sid st;
  latest_media_timestamp := latest_media_timestamp st; mark_queue := mark_queue st;
  connection_active := connection_active st; start_data := start_data st;
  speech_started := speech_started st; last_assistant_item := last_assistant_item st;
  response_start_timestamp_twilio := v |}.

(** ** receive_from_twilio: the audio framer *)

Section Framer.

Variable frame_size : nat.
Hypothesis frame_size_pos : (0 < frame_size)%nat.

Lemma drop_frame_shorter (inbuffer : bytes) :
  (frame_size <= length inbuffer)%nat ->
  (length (drop frame_size inbuffer) < length inbuffer)%nat.
Proof. intros H. rewrite length_drop. lia. Qed.

(** [while len(inbuffer) >= frame_size: put(inbuffer[:frame_size]);
    inbuffer = inbuffer[frame_size:]]: the frames put, in order, and the
    buffer left. *)
Equations? frames_loop (inbuffer : bytes) : list bytes * bytes
    by wf (length inbuffer) lt :=
  frames_loop inbuffer with decide (frame_size <= length inbuffer)%nat => {
    | left _ =>
        let audio_chunk := take frame_size inbuffer in
        let '(frames, rest) := frames_loop (drop frame_size inbuffer) in
        (audio_chunk :: frames, rest);
    | right _ => ([], inbuffer) }.
Proof. now apply drop_frame_shorter. Qed.

End Framer.

Definition BUFFER_SIZE : nat := 20 * 160.

Lemma BUFFER_SIZE_pos : (0 < BUFFER_SIZE)%nat.
Proof. unfold BUFFER_SIZE. lia. Qed.

(** The loop of [receive_from_twilio], with its frame size. *)
Definition drain_frames (inbuffer : bytes) : list bytes * bytes :=
  frames_loop BUFFER_SIZE BUFFER_SIZE_pos inbuffer.

(** ** receive_from_twilio *)

(** [handle_start_event]; [None] when [data["start"]["streamSid"]] raises
    KeyError (nothing has been assigned yet). *)
Definition handle_start_event (connections : gmap string connection_data)
    (start : option start_fields) (st : connection_state) : option connection_state :=
  match start with
  | None => None
  | Some s =>
      match s_streamSid s with
      | None => None
      | Some sid =>
          let st := set_stream_sid (Some sid) st in
          let st :=
            if negb (Py.truthy (call_sid st)) then
              let st := set_call_sid (Py.or_ (s_callSid s) (stream_sid st)) st in
              match lookup_call (call_sid st) connections with
              | Some connection_data =>
                  match phone connection_data with
                  | Some p => set_caller_phone p st
                  | None => st
                  end
              | None => st
              end
            else st in
          let st := set_latest_media_timestamp 0 st in
          let st := set_last_assistant_item None st in
          Some (set_response_start_timestamp_twilio None st)
      end
  end.

(** One turn of the [while] loop of [receive_from_twilio] after a text frame
    was received: the loop goes on, or it is left (by [break] or by an
    exception that one of the outer handlers catches) in its final state. *)
Inductive step_result :=
| Next (st : connection_state) (inbuffer : bytes) (out : list effect)
| Exit (st : connection_state) (out : list effect).

(** [except WebSocketDisconnect] and [except Exception] around the loop. *)
Definition loop_failed (st : connection_state) : step_result :=
  Exit (set_connection_active false st) [].

Definition on_media (media : option media_fields) (st : connection_state)
    (inbuffer : bytes) : step_result :=
  let timestamp :=
    match media with
    | Some m => m_timestamp m
    | None => TsAbsent          (* data.get("media", {}) *)
    end in
  match timestamp with
  | TsInvalid => loop_failed st
  | _ =>
      let st := set_latest_media_timestamp
                  (match timestamp with TsValue z => z | _ => 0 end) st in
      match media with
      | None => loop_failed st              (* data["media"] *)
      | Some m =>
          match m_payload m with
          | None => loop_failed st          (* media["payload"], b64decode *)
          | Some chunk =>
              if decide (m_track m = Some "inbound") then
                let '(frames, inbuffer) := drain_frames (inbuffer ++ chunk) in
                Next st inbuffer (AudioQueuePut <$> frames)
              else Next st inbuffer []
          end
      end
  end.

Definition on_twilio_text (connections : gmap string connection_data)
    (message : twilio_text) (st : connection_state) (inbuffer : bytes) : step_result :=
  match message with
  | TwMalformed => loop_failed st           (* json.loads raises *)
  | TwJson data =>
      match data with
      | EvNoEvent => loop_failed st         (* data["event"] raises *)
      | EvMedia media => on_media media st inbuffer
      | EvStart start =>
          match handle_start_event connections start st with
          | Some st => Next st inbuffer []
          | None => loop_failed st
          end
      | EvMark =>
          match Py.pop0 (mark_queue st) with
          | Some (_, q) => Next (set_mark_queue q st) inbuffer []
          | None => Next st inbuffer []     (* empty queue: no pop *)
          end
      | EvStop => Exit (set_connection_active false st) []
      | EvOther _ => Next st inbuffer []
      end
  end.

(** How a task ended, as far as the model follows it. *)
Inductive task_status :=
| Returned      (* the coroutine returned *)
| Blocked       (* it awaits a receive that never completes *)
| Raised.       (* an exception left the coroutine *)

Record twilio_run := {
  final : connection_state;
  out : list effect;
  status : task_status;
  leftover : bytes;      (* the local inbuffer when the task ended *)
}.

Definition emit (o : list effect) (r : twilio_run) : twilio_run :=
  {| final := final r; out := o ++ out r; status := status r; leftover := leftover r |}.

Definition RECEIVE_TIMEOUT_MS : Z := 5000.

(** The [while connection_state["connection_active"]] loop. The socket is
    given by what it delivers: each item with the time (ms) the loop has to
    wait for it, counted from the moment it starts to wait. A wait below the
    timeout is a [receive_text()] completing inside [asyncio.wait_for]; a
    longer one raises TimeoutError, and the item is what the bare
    [receive_text()] of the handler ends with, however late. When nothing
    more is ever delivered that bare receive never completes. *)
Fixpoint twilio_loop (connections : gmap string connection_data)
    (arrivals : list (Z * ws_item)) (st : connection_state) (inbuffer : bytes)
    : twilio_run :=
  if negb (connection_active st) then
    {| final := st; out := []; status := Returned; leftover := inbuffer |}
  else
    match arrivals with
    | [] =>
        {| final := st; out := [ProbeReceive]; status := Blocked; leftover := inbuffer |}
    | (wait, item) :: arrivals =>
        if wait <? RECEIVE_TIMEOUT_MS then
          match item with
          | WsText message =>
              match on_twilio_text connections message st inbuffer with
              | Next st inbuffer o => emit o (twilio_loop connections arrivals st inbuffer)
              | Exit st o =>
                  {| final := st; out := o; status := Returned; leftover := inbuffer |}
              end
          | WsDisconnect | WsError =>
              {| final := set_connection_active false st; out := [];
                 status := Returned; leftover := inbuffer |}
          end
        else
          (* except asyncio.TimeoutError: pong = await websocket.receive_text() *)
          match item with
          | WsText _ => emit [ProbeReceive] (twilio_loop connections arrivals st inbuffer)
          | WsDisconnect | WsError =>
              {| final := set_connection_active false st; out := [ProbeReceive];
                 status := Returned; leftover := inbuffer |}
          end
    end.

Definition receive_from_twilio (connections : gmap string connection_data)
    (arrivals : list (Z * ws_item)) (st : connection_state) : twilio_run :=
  let inbuffer : bytes := [] in
  match start_data st with
  | Some (EvStart (Some s)) =>
      match s_streamSid s with
      | Some sid =>
          let st := set_stream_sid (Some sid) st in
          let st := set_latest_media_timestamp 0 st in
          twilio_loop connections arrivals st inbuffer
      | None => {| final := st; out := []; status := Raised; leftover := inbuffer |}
      end
  | Some (EvStart None) | Some EvNoEvent =>
      {| final := st; out := []; status := Raised; leftover := inbuffer |}
  | _ => twilio_loop connections arrivals st inbuffer
  end.

(** ** receive_from_deepgram *)

(** The object under ["parameters"] of a function call, by what
    [params.get("name")] and [params.get("email", "")] return. *)
Record function_parameters := {
  p_name : option string;            (* None: key absent, or null *)
  p_email : option (option string);  (* None: key absent; Some None: null *)
}.

(** [data.get("parameters", {})]. *)
Inductive parameters_field :=
| ParamsAbsent                             (* no "parameters" key: the default {} *)
| ParamsObject (p : function_parameters)   (* a JSON object *)
| ParamsInvalid.                           (* any other value (null, a string, ...):
                                              params.get raises AttributeError *)

(** The fields the code reads from a parsed agent event. A [d_type] of
    [None] is a message without ["type"] (or one that is no JSON object):
    [event.lower()] then raises. *)
Record deepgram_data := {
  d_type : option string;
  d_role : option string;
  d_content : option string;
  d_item_id : option string;
  d_name : option string;
  d_parameters : parameters_field;
}.

Inductive deepgram_text :=
| DgMalformed                  (* json.loads raises JSONDecodeError *)
| DgJson (data : deepgram_data).

Inductive deepgram_message :=
| DgStr (message : deepgram_text)
| DgBinary (audio : bytes).

(** [connections.add_message(connection_state["call_sid"], ...)]. *)
Definition add_message (call_sid : option string) (r c : string)
    (connections : gmap string connection_data) : gmap string connection_data :=
  match call_sid with
  | Some sid => ConnectionStore.add_message sid r c connections
  | None => connections
  end.

Definition send_mark (st : connection_state) : connection_state * list effect :=
  if Py.truthy (stream_sid st) then
    (set_mark_queue (Py.append (mark_queue st) "responsePart") st,
     [TwilioSend (OutMark (stream_sid st) "responsePart")])
  else (st, []).

(** One message of the [async for] loop: the loop goes on, or an exception
    reaches the handlers around it. *)
Inductive agent_step :=
| AgentNext (connections : gmap string connection_data) (st : connection_state)
    (out : list effect)
| AgentExit (connections : gmap string connection_data) (st : connection_state)
    (out : list effect).

Definition on_conversation_text (connections : gmap string connection_data)
    (data : deepgram_data) (st : connection_state) : agent_step :=
  match d_role data, d_content data with
  | Some r, Some c =>
      if Py.truthy (Some r) && Py.truthy (Some c) then
        let connections := add_message (call_sid st) r c connections in
        if String.eqb r "assistant" then
          let st := set_last_assistant_item (d_item_id data) st in
          match response_start_timestamp_twilio st with
          | None =>
              AgentNext connections
                (set_response_start_timestamp_twilio
                   (Some (latest_media_timestamp st)) st) []
          | Some _ => AgentNext connections st []
          end
        else AgentNext connections st []
      else AgentNext connections st []
  | _, _ => AgentNext connections st []
  end.

Definition on_function_call (connections : gmap string connection_data)
    (data : deepgram_data) (st : connection_state) : agent_step :=
  if decide (d_name data = Some "store_contact_info") then
    let captured (name email : option string) :=
      AgentNext
        (add_message (call_sid st) "assistant"
           ("Captured via function: name=" +:+ Py.fmt name +:+ ", email=" +:+ Py.fmt email)
           connections)
        st [] in
    match d_parameters data with
    | ParamsAbsent => captured None (Some "")
    | ParamsObject params => captured (p_name params) (default (Some "") (p_email params))
    | ParamsInvalid =>
        (* params.get("name") raises: except Exception around the loop *)
        AgentExit connections (set_connection_active false st) []
    end
  else AgentNext connections st [].

Definition on_user_started_speaking (connections : gmap string connection_data)
    (st : connection_state) : agent_step :=
  let st := set_speech_started true st in
  match response_start_timestamp_twilio st with
  | Some response_start =>
      if Py.truthy (stream_sid st) && Py.truthy (last_assistant_item st) then
        let elapsed_time := latest_media_timestamp st - response_start in
        let truncate_event := OutTruncate (last_assistant_item st) 0 elapsed_time in
        let clear := OutClear (stream_sid st) in
        let st' := set_mark_queue [] st in
        let st' := set_last_assistant_item None st' in
        let st' := set_response_start_timestamp_twilio None st' in
        AgentNext connections st' [DeepgramSend truncate_event; TwilioSend clear]
      else AgentNext connections st []
  | None => AgentNext connections st []
  end.

Definition on_deepgram_text (connections : gmap string connection_data)
    (message : deepgram_text) (st : connection_state) : agent_step :=
  match message with
  | DgMalformed => AgentNext connections st []      (* except json.JSONDecodeError *)
  | DgJson data =>
      match d_type data with
      | None => AgentExit connections (set_connection_active false st) []
      | Some event =>
          if String.eqb (Py.lower event) "conversationtext" then
            on_conversation_text connections data st
          else if String.eqb (Py.lower event) "functioncall" then
            on_function_call connections data st
          else if String.eqb event "UserStartedSpeaking" then
            on_user_started_speaking connections st
          else AgentNext connections st []
      end
  end.

Definition on_deepgram_binary (audio : bytes) (st : connection_state)
    : connection_state * list effect :=
  if Py.truthy (stream_sid st) then
    let st := set_speech_started false st in
    let media_message := OutMedia (stream_sid st) audio in
    let '(st, marks) := send_mark st in
    (st, TwilioSend media_message :: marks)
  else (st, []).

Definition on_deepgram_message (connections : gmap string connection_data)
    (message : deepgram_message) (st : connection_state) : agent_step :=
  match message with
  | DgStr text => on_deepgram_text connections text st
  | DgBinary audio =>
      let '(st, o) := on_deepgram_binary audio st in AgentNext connections st o
  end.

(** What the iteration over [deepgram_ws] yields next. *)
Inductive agent_item :=
| AgMessage (message : deepgram_message)
| AgClosed.          (* the iterator raises ConnectionClosed *)

Record agent_run := {
  a_store : gmap string connection_data;
  a_final : connection_state;
  a_out : list effect;
}.

Definition a_emit (o : list effect) (r : agent_run) : agent_run :=
  {| a_store := a_store r; a_final := a_final r; a_out := o ++ a_out r |}.

(** [async for message in connection_state["deepgram_ws"]]; the list ends
    where the iterator stops. *)
Fixpoint receive_from_deepgram (connections : gmap string connection_data)
    (items : list agent_item) (st : connection_state) : agent_run :=
  match items with
  | [] => {| a_store := connections; a_final := st; a_out := [] |}
  | AgClosed :: _ =>
      {| a_store := connections; a_final := set_connection_active false st; a_out := [] |}
  | AgMessage message :: items =>
      if negb (connection_active st) then
        {| a_store := connections; a_final := st; a_out := [] |}
      else
        match on_deepgram_message connections message st with
        | AgentNext connections st o =>
            a_emit o (receive_from_deepgram connections items st)
        | AgentExit connections st o =>
            {| a_store := connections; a_final := st; a_out := o |}
        end
  end.

(** ** initialize_connection_state *)

(** [except (asyncio.TimeoutError, json.JSONDecodeError, KeyError)]. *)
Definition start_failed (st : connection_state) : connection_state :=
  set_start_data None (set_caller_phone "Unknown Caller" st).

(** The first message is awaited with [asyncio.wait_for(..., timeout=5.0)]:
    [first] is what the socket delivers and after which wait, [None] when it
    delivers nothing. The result is [None] when an exception that the
    function does not catch leaves it. *)
Definition initialize_connection_state (connections : gmap string connection_data)
    (first : option (Z * ws_item)) (st : connection_state) : option connection_state :=
  match first with
  | None => Some (start_failed st)
  | Some (wait, item) =>
      if wait <? RECEIVE_TIMEOUT_MS then
        match item with
        | WsText TwMalformed => Some (start_failed st)
        | WsText (TwJson data) =>
            match data with
            | EvNoEvent => Some (start_failed st)
            | EvStart None => Some (start_failed st)
            | EvStart (Some s) =>
                let st := set_call_sid (Py.or_ (s_callSid s) (s_streamSid s)) st in
                let st :=
                  match lookup_call (call_sid st) connections with
                  | Some connection_data =>
                      match phone connection_data with
                      | Some p => set_caller_phone p st
                      | None => st
                      end
                  | None => st
                  end in
                Some (set_start_data (Some data) st)
            | _ => Some (set_start_data (Some data) st)
            end
        | WsDisconnect | WsError => None
        end
      else Some (start_failed st)
  end.

(** ** handle_media_stream *)

(** How one pass of the retry loop goes. *)
Inductive attempt_outcome :=
| InvalidHandshake        (* websockets.connect raises InvalidHandshake *)
| AckTimeout              (* connected, Settings sent, no response within the
                             5 s of initialize_deepgram_session: TimeoutError *)
| ConnectionClosed        (* websockets ConnectionClosed is raised *)
| OtherError              (* any other exception *)
| Connected (active : bool).
                          (* the session is initialised and the three tasks
                             run until one completes; [active] is
                             connection_state["connection_active"] then *)

Inductive stream_event :=
| Connect (attempt : nat)       (* websockets.connect(...), attempt counted from 0 *)
| TasksStarted                  (* the three asyncio.create_task *)
| Sleep (seconds : Z)           (* await asyncio.sleep(retry_delay) *)
| Cleanup.                      (* await cleanup_connection(connection_state) *)

Definition max_retries : nat := 3.

(** The [finally] clause: clean up and leave the loop, or go on with the
    next attempt. *)
Definition finally_ (attempt : nat) (active : bool) (continue : list stream_event)
    : list stream_event :=
  if (attempt =? max_retries - 1)%nat || negb active then [Cleanup] else continue.

(** [for attempt in range(max_retries)], as a recursion over the attempts
    that remain; [outcome attempt] tells how attempt number [attempt] goes. *)
Fixpoint retry_loop (outcome : nat -> attempt_outcome) (attempts : list nat)
    (retry_delay : Z) (active : bool) : list stream_event :=
  match attempts with
  | [] => []
  | attempt :: attempts =>
      Connect attempt ::
      match outcome attempt with
      | Connected active' =>
          (* ... break; the finally clause runs on the way out *)
          TasksStarted :: finally_ attempt active' []
      | InvalidHandshake =>
          if (attempt <? max_retries - 1)%nat then
            Sleep retry_delay ::
            finally_ attempt active (retry_loop outcome attempts (retry_delay * 2) active)
          else
            finally_ attempt active (retry_loop outcome attempts retry_delay active)
      | AckTimeout | ConnectionClosed | OtherError =>
          finally_ attempt active (retry_loop outcome attempts retry_delay active)
      end
  end.

Record stream_run := {
  h_state : option connection_state;    (* after initialize_connection_state *)
  h_events : list stream_event;
}.

Definition handle_media_stream (connections : gmap string connection_data)
    (first : option (Z * ws_item)) (outcome : nat -> attempt_outcome) : stream_run :=
  match initialize_connection_state connections first initial_state with
  | Some st =>
      {| h_state := Some st;
         h_events := retry_loop outcome (seq 0 max_retries) 1 (connection_active st) |}
  | None => {| h_state := None; h_events := [] |}
  end.

(** * Properties *)

(** ** The audio framer *)

Section FramerFacts.

Variable frame_size : nat.
Hypothesis frame_size_pos : (0 < frame_size)%nat.

Local Abbreviation loop := (frames_loop frame_size frame_size_pos).

Lemma frames_loop_small (inbuffer : bytes) :
  (length inbuffer < frame_size)%nat -> loop inbuffer = ([], inbuffer).
Proof.
  intros Hlen. rewrite frames_loop_equation_1.
  destruct (decide (frame_size <= length inbuffer)%nat) as [Hge|Hlt]; [lia|reflexivity].
Qed.

Lemma frames_loop_full (inbuffer : bytes) :
  (frame_size <= length inbuffer)%nat ->
  loop inbuffer =
    (take frame_size inbuffer :: (loop (drop frame_size inbuffer)).1,
     (loop (drop frame_size inbuffer)).2).
Proof.
  intros Hlen. rewrite frames_loop_equation_1.
  destruct (decide (frame_size <= length inbuffer)%nat) as [Hge|Hlt]; [|lia].
  simpl. now destruct (loop (drop frame_size inbuffer)).
Qed.

(** Induction along the [while] loop of the framer. *)
Lemma frames_loop_ind (P : bytes -> Prop) :
  (forall inbuffer, (length inbuffer < frame_size)%nat -> P inbuffer) ->
  (forall inbuffer, (frame_size <= length inbuffer)%nat ->
     P (drop frame_size inbuffer) -> P inbuffer) ->
  forall inbuffer, P inbuffer.
Proof.
  intros Hsmall Hfull inbuffer.
  induction inbuffer as [inbuffer IH] using (induction_ltof1 _ (@length Byte.byte)).
  destruct (decide (frame_size <= length inbuffer)%nat) as [Hge|Hlt].
  - apply Hfull; [assumption|]. apply IH. unfold ltof. now apply drop_frame_shorter.
  - apply Hsmall. lia.
Qed.

(** What the loop puts and what it keeps: the frames are the buffer cut in
    pieces of [frame_size] bytes, in order, and less than one frame stays. *)
Lemma frames_loop_spec (inbuffer : bytes) :
  concat (loop inbuffer).1 ++ (loop inbuffer).2 = inbuffer
  /\ Forall (fun frame => length frame = frame_size) (loop inbuffer).1
  /\ (length (loop inbuffer).2 < frame_size)%nat.
Proof.
  induction inbuffer as [inbuffer Hlt|inbuffer Hge (IHc & IHf & IHr)]
    using frames_loop_ind.
  - rewrite frames_loop_small by assumption. simpl. auto.
  - rewrite frames_loop_full by assumption. simpl. repeat split.
    + rewrite <- app_assoc, IHc. apply take_drop.
    + constructor; [|assumption]. rewrite length_take. lia.
    + assumption.
Qed.

(** Feeding more bytes after a buffer was drained gives the same frames as
    draining everything at once. *)
Lemma frames_loop_app (inbuffer chunk : bytes) :
  loop (inbuffer ++ chunk) =
    ((loop inbuffer).1 ++ (loop ((loop inbuffer).2 ++ chunk)).1,
     (loop ((loop inbuffer).2 ++ chunk)).2).
Proof.
  induction inbuffer as [inbuffer Hlt|inbuffer Hge IH] using frames_loop_ind.
  - rewrite (frames_loop_small inbuffer) by assumption. simpl.
    now destruct (loop (inbuffer ++ chunk)).
  - rewrite (frames_loop_full inbuffer) by assumption. simpl.
    rewrite frames_loop_full by (rewrite length_app; lia).
    rewrite take_app_le, drop_app_le by assumption.
    rewrite IH. reflexivity.
Qed.

Lemma frames_loop_app_fst (inbuffer chunk : bytes) :
  (loop (inbuffer ++ chunk)).1 =
    (loop inbuffer).1 ++ (loop ((loop inbuffer).2 ++ chunk)).1.
Proof. now rewrite frames_loop_app. Qed.

Lemma frames_loop_app_snd (inbuffer chunk : bytes) :
  (loop (inbuffer ++ chunk)).2 = (loop ((loop inbuffer).2 ++ chunk)).2.
Proof. now rewrite frames_loop_app. Qed.

Lemma length_concat_frames (frames : list bytes) :
  Forall (fun frame => length frame = frame_size) frames ->
  length (concat frames) = (length frames * frame_size)%nat.
Proof.
  induction 1 as [|frame frames Hf _ IH]; simpl; [reflexivity|].
  rewrite length_app, IH, Hf. reflexivity.
Qed.

(** The number of frames put is the number of whole frames in the input. *)
Lemma frames_loop_count (inbuffer : bytes) :
  length (loop inbuffer).1 = (length inbuffer / frame_size)%nat.
Proof.
  destruct (frames_loop_spec inbuffer) as (Hc & Hf & Hr).
  apply length_concat_frames in Hf.
  apply (f_equal length) in Hc. rewrite length_app, Hf in Hc.
  apply (Nat.div_unique _ _ _ (length (loop inbuffer).2)); lia.
Qed.

Lemma frames_loop_take_drop (inbuffer : bytes) :
  let n := (length inbuffer / frame_size * frame_size)%nat in
  concat (loop inbuffer).1 = take n inbuffer
  /\ (loop inbuffer).2 = drop n inbuffer.
Proof.
  intros n. destruct (frames_loop_spec inbuffer) as (Hc & Hf & Hr).
  assert (Hn : length (concat (loop inbuffer).1) = n).
  { rewrite length_concat_frames by assumption. now rewrite frames_loop_count. }
  split.
  - transitivity (take n (concat (loop inbuffer).1 ++ (loop inbuffer).2)).
    + rewrite <- Hn. symmetry. apply take_app_length.
    + now rewrite Hc.
  - transitivity (drop n (concat (loop inbuffer).1 ++ (loop inbuffer).2)).
    + rewrite <- Hn. symmetry. apply drop_app_length.
    + now rewrite Hc.
Qed.

End FramerFacts.

Lemma BUFFER_SIZE_eq : BUFFER_SIZE = 3200%nat.
Proof. reflexivity. Qed.

Lemma drain_frames_small (inbuffer : bytes) :
  (length inbuffer < BUFFER_SIZE)%nat -> drain_frames inbuffer = ([], inbuffer).
Proof. apply frames_loop_small. Qed.

Lemma drain_frames_spec (inbuffer : bytes) :
  concat (drain_frames inbuffer).1 ++ (drain_frames inbuffer).2 = inbuffer
  /\ Forall (fun frame => length frame = BUFFER_SIZE) (drain_frames inbuffer).1
  /\ (length (drain_frames inbuffer).2 < BUFFER_SIZE)%nat.
Proof. apply frames_loop_spec. Qed.

Lemma drain_frames_app_fst (inbuffer chunk : bytes) :
  (drain_frames (inbuffer ++ chunk)).1 =
    (drain_frames inbuffer).1 ++ (drain_frames ((drain_frames inbuffer).2 ++ chunk)).1.
Proof. apply frames_loop_app_fst. Qed.

Lemma drain_frames_app_snd (inbuffer chunk : bytes) :
  (drain_frames (inbuffer ++ chunk)).2 =
    (drain_frames ((drain_frames inbuffer).2 ++ chunk)).2.
Proof. apply frames_loop_app_snd. Qed.

Lemma drain_frames_take_drop (inbuffer : bytes) :
  let n := (length inbuffer / BUFFER_SIZE * BUFFER_SIZE)%nat in
  concat (drain_frames inbuffer).1 = take n inbuffer
  /\ (drain_frames inbuffer).2 = drop n inbuffer.
Proof. apply frames_loop_take_drop. Qed.

#[local] Opaque BUFFER_SIZE drain_frames.

(** ** Output traces *)

Lemma emit_nil (r : twilio_run) : emit [] r = r.
Proof. now destruct r. Qed.

Lemma emit_app (o1 o2 : list effect) (r : twilio_run) :
  emit o1 (emit o2 r) = emit (o1 ++ o2) r.
Proof. unfold emit. simpl. now rewrite app_assoc. Qed.

(** The frames put into [audio_queue], in order. *)
Definition frames_put (o : list effect) : list bytes :=
  omap (fun e => match e with AudioQueuePut frame => Some frame | _ => None end) o.

Lemma frames_put_puts (frames : list bytes) :
  frames_put (AudioQueuePut <$> frames) = frames.
Proof.
  induction frames as [|f frames IH]; [reflexivity|].
  change (frames_put (AudioQueuePut <$> f :: frames))
    with (f :: frames_put (AudioQueuePut <$> frames)).
  now rewrite IH.
Qed.

(** ** The telephony loop on inbound media *)

(** A media event of the inbound track, as the loop receives it: after
    [c_wait] ms, with a timestamp and a payload that decodes. *)
Record inbound_chunk := {
  c_wait : Z;
  c_timestamp : Z;
  c_payload : bytes;
}.

Definition media_message (c : inbound_chunk) : twilio_text :=
  TwJson (EvMedia (Some {| m_timestamp := TsValue (c_timestamp c);
                           m_track := Some "inbound";
                           m_payload := Some (c_payload c) |})).

Definition media_arrival (c : inbound_chunk) : Z * ws_item :=
  (c_wait c, WsText (media_message c)).

(** The state after the chunks: only the media timestamp has moved. *)
Definition after_chunks (chunks : list inbound_chunk) (st : connection_state)
    : connection_state :=
  foldl (fun st c => set_latest_media_timestamp (c_timestamp c) st) st chunks.

Lemma after_chunks_active chunks st :
  connection_active (after_chunks chunks st) = connection_active st.
Proof.
  revert st. induction chunks as [|c chunks IH]; intros st; simpl; [reflexivity|].
  now rewrite IH.
Qed.

Lemma on_inbound_media connections c st inbuffer :
  on_twilio_text connections (media_message c) st inbuffer
  = Next (set_latest_media_timestamp (c_timestamp c) st)
      (drain_frames (inbuffer ++ c_payload c)).2
      (AudioQueuePut <$> (drain_frames (inbuffer ++ c_payload c)).1).
Proof.
  unfold media_message, on_twilio_text, on_media. simpl.
  destruct (decide (Some "inbound" = Some "inbound")) as [_|Hne]; [|congruence].
  now destruct (drain_frames (inbuffer ++ c_payload c)).
Qed.

(** One turn of the loop while the connection is active. *)
Lemma twilio_loop_cons connections wait item arrivals st inbuffer :
  connection_active st = true ->
  twilio_loop connections ((wait, item) :: arrivals) st inbuffer =
    if wait <? RECEIVE_TIMEOUT_MS then
      match item with
      | WsText message =>
          match on_twilio_text connections message st inbuffer with
          | Next st inbuffer o => emit o (twilio_loop connections arrivals st inbuffer)
          | Exit st o =>
              {| final := st; out := o; status := Returned; leftover := inbuffer |}
          end
      | WsDisconnect | WsError =>
          {| final := set_connection_active false st; out := [];
             status := Returned; leftover := inbuffer |}
      end
    else
      match item with
      | WsText _ => emit [ProbeReceive] (twilio_loop connections arrivals st inbuffer)
      | WsDisconnect | WsError =>
          {| final := set_connection_active false st; out := [ProbeReceive];
             status := Returned; leftover := inbuffer |}
      end.
Proof. intros Hactive. cbn [twilio_loop]. now rewrite Hactive. Qed.

Lemma twilio_loop_nil connections st inbuffer :
  connection_active st = true ->
  twilio_loop connections [] st inbuffer =
    {| final := st; out := [ProbeReceive]; status := Blocked; leftover := inbuffer |}.
Proof. intros Hactive. cbn [twilio_loop]. now rewrite Hactive. Qed.

(** A receive that times out: the bare receive of the handler follows. *)
Lemma twilio_loop_timeout connections wait item rest st inbuffer :
  connection_active st = true ->
  RECEIVE_TIMEOUT_MS <= wait ->
  twilio_loop connections ((wait, item) :: rest) st inbuffer =
    match item with
    | WsText _ => emit [ProbeReceive] (twilio_loop connections rest st inbuffer)
    | WsDisconnect | WsError =>
        {| final := set_connection_active false st; out := [ProbeReceive];
           status := Returned; leftover := inbuffer |}
    end.
Proof.
  intros Hactive Hwait. rewrite twilio_loop_cons by assumption.
  apply Z.ltb_ge in Hwait. now rewrite Hwait.
Qed.

Lemma twilio_loop_media_cons connections c arrivals st inbuffer :
  connection_active st = true ->
  c_wait c < RECEIVE_TIMEOUT_MS ->
  twilio_loop connections (media_arrival c :: arrivals) st inbuffer
  = emit (AudioQueuePut <$> (drain_frames (inbuffer ++ c_payload c)).1)
      (twilio_loop connections arrivals
         (set_latest_media_timestamp (c_timestamp c) st)
         (drain_frames (inbuffer ++ c_payload c)).2).
Proof.
  intros Hactive Hc. unfold media_arrival.
  rewrite twilio_loop_cons by assumption.
  apply Z.ltb_lt in Hc. rewrite Hc.
  now rewrite on_inbound_media.
Qed.

Definition stop_arrival : Z * ws_item := (0, WsText (TwJson EvStop)).

Lemma twilio_loop_stop connections st inbuffer :
  connection_active st = true ->
  twilio_loop connections [stop_arrival] st inbuffer =
    {| final := set_connection_active false st; out := [];
       status := Returned; leftover := inbuffer |}.
Proof. intros Hactive. unfold stop_arrival. now rewrite twilio_loop_cons. Qed.

(** The chunks that the bounded receive delivers: those that arrive before
    the timeout. A chunk that comes later is what the bare receive of the
    timeout handler returns. *)
Definition in_time (chunks : list inbound_chunk) : list inbound_chunk :=
  filter (fun c => c_wait c < RECEIVE_TIMEOUT_MS) chunks.

(** The decoded bytes of a sequence of inbound chunks, and the length of
    the whole frames in a buffer. *)
Definition input_bytes (chunks : list inbound_chunk) : bytes :=
  concat (c_payload <$> chunks).

Definition whole_frames (input : bytes) : nat :=
  (length input / BUFFER_SIZE * BUFFER_SIZE)%nat.

(** What the framer is given while the chunks are received: the bytes the
    buffer holds, then the bytes of the chunks received in time. *)
Definition framer_input (inbuffer : bytes) (chunks : list inbound_chunk) : bytes :=
  inbuffer ++ input_bytes (in_time chunks).

(** A put into [audio_queue], or the bare receive after a timeout. *)
Definition put_or_probe (e : effect) : Prop :=
  match e with
  | AudioQueuePut _ | ProbeReceive => True
  | TwilioSend _ | DeepgramSend _ => False
  end.

Lemma in_time_early c chunks :
  c_wait c < RECEIVE_TIMEOUT_MS -> in_time (c :: chunks) = c :: in_time chunks.
Proof. intros Hc. unfold in_time. now rewrite filter_cons_True. Qed.

Lemma in_time_late c chunks :
  RECEIVE_TIMEOUT_MS <= c_wait c -> in_time (c :: chunks) = in_time chunks.
Proof. intros Hc. unfold in_time. rewrite filter_cons_False; [reflexivity|lia]. Qed.

Lemma in_time_all chunks :
  Forall (fun c => c_wait c < RECEIVE_TIMEOUT_MS) chunks -> in_time chunks = chunks.
Proof.
  induction 1 as [|c chunks Hc _ IH]; [reflexivity|].
  now rewrite in_time_early, IH.
Qed.

Lemma frames_put_app (o1 o2 : list effect) :
  frames_put (o1 ++ o2) = frames_put o1 ++ frames_put o2.
Proof. apply omap_app. Qed.

Lemma put_or_probe_puts (frames : list bytes) :
  Forall put_or_probe (AudioQueuePut <$> frames).
Proof. induction frames; constructor; [exact I|assumption]. Qed.

(** The loop on a run of inbound media, each chunk in time or late. *)
Lemma twilio_loop_chunks connections chunks st inbuffer :
  connection_active st = true ->
  (length inbuffer < BUFFER_SIZE)%nat ->
  exists o : list effect,
    (forall rest,
       twilio_loop connections ((media_arrival <$> chunks) ++ rest) st inbuffer
       = emit o (twilio_loop connections rest (after_chunks (in_time chunks) st)
                   (drain_frames (framer_input inbuffer chunks)).2))
    /\ frames_put o = (drain_frames (framer_input inbuffer chunks)).1
    /\ Forall put_or_probe o
    /\ (Forall (fun c => c_wait c < RECEIVE_TIMEOUT_MS) chunks ->
        o = AudioQueuePut <$> frames_put o).
Proof.
  revert st inbuffer.
  induction chunks as [|c chunks IH]; intros st inbuffer Hactive Hlen.
  - exists []. unfold framer_input, input_bytes. cbn [in_time filter list_filter fmap
      list_fmap concat app after_chunks foldl].
    rewrite app_nil_r, drain_frames_small by assumption.
    repeat split; try constructor. intros rest. now rewrite emit_nil.
  - change (media_arrival <$> c :: chunks)
      with (media_arrival c :: (media_arrival <$> chunks)).
    destruct (decide (c_wait c < RECEIVE_TIMEOUT_MS)) as [Hc|Hc].
    + assert (Hrest : (length (drain_frames (inbuffer ++ c_payload c)).2 < BUFFER_SIZE)%nat)
        by apply drain_frames_spec.
      assert (Hactive' :
        connection_active (set_latest_media_timestamp (c_timestamp c) st) = true)
        by exact Hactive.
      destruct (IH _ _ Hactive' Hrest) as (o & Hloop & Hframes & Hshape & Hputs).
      exists ((AudioQueuePut <$> (drain_frames (inbuffer ++ c_payload c)).1) ++ o).
      rewrite frames_put_app, frames_put_puts, Hframes.
      unfold framer_input in *. rewrite (in_time_early _ _ Hc).
      change (input_bytes (c :: in_time chunks))
        with (c_payload c ++ input_bytes (in_time chunks)).
      rewrite (app_assoc inbuffer).
      rewrite (drain_frames_app_fst (inbuffer ++ c_payload c)).
      rewrite (drain_frames_app_snd (inbuffer ++ c_payload c)).
      repeat split.
      * intros rest. rewrite <- app_comm_cons.
        rewrite twilio_loop_media_cons by assumption.
        now rewrite Hloop, emit_app.
      * apply Forall_app. split; [apply put_or_probe_puts|assumption].
      * intros Hall. apply Forall_cons in Hall as [_ Hall].
        rewrite fmap_app, <- Hframes, <- (Hputs Hall). reflexivity.
    + apply Z.nlt_ge in Hc.
      destruct (IH _ _ Hactive Hlen) as (o & Hloop & Hframes & Hshape & Hputs).
      exists (ProbeReceive :: o).
      unfold framer_input in *. rewrite (in_time_late _ _ Hc).
      repeat split.
      * intros rest. rewrite <- app_comm_cons. unfold media_arrival at 1.
        rewrite twilio_loop_timeout by assumption.
        now rewrite Hloop, emit_app.
      * exact Hframes.
      * constructor; [exact I|assumption].
      * intros Hall. apply Forall_cons in Hall as [Hearly _]. lia.
Qed.

(** 2000 bytes arrive, then nothing for 5 s, then a chunk of 1200 bytes,
    then at once one more of 1200 bytes. *)
Definition stalled_chunks : list inbound_chunk :=
  [ {| c_wait := 0; c_timestamp := 0; c_payload := repeat Byte.x01 2000 |};
    {| c_wait := 5000; c_timestamp := 5250; c_payload := repeat Byte.x02 1200 |};
    {| c_wait := 0; c_timestamp := 5400; c_payload := repeat Byte.x03 1200 |} ].

(** C2, against the claim as it is stated: the chunks of [stalled_chunks]
    arrive and the stream stops. The claim gives one frame, made of the
    first 3200 bytes received. The loop puts one frame too, but the chunk
    that came after the silence is not in it: it was taken by the bare
    receive of the timeout handler, and the frame joins the first chunk to
    the third. *)
Lemma chunk_after_silence_not_framed :
  frames_put (out (twilio_loop ∅ ((media_arrival <$> stalled_chunks) ++ [stop_arrival])
                     initial_state []))
  = [repeat Byte.x01 2000 ++ repeat Byte.x03 1200]
  /\ take (length (input_bytes stalled_chunks) / 3200 * 3200) (input_bytes stalled_chunks)
     = repeat Byte.x01 2000 ++ repeat Byte.x02 1200
  /\ concat (frames_put
               (out (twilio_loop ∅ ((media_arrival <$> stalled_chunks) ++ [stop_arrival])
                       initial_state [])))
     <> take (length (input_bytes stalled_chunks) / 3200 * 3200)
          (input_bytes stalled_chunks).
Proof.
  split; [vm_compute; reflexivity|]. split; [vm_compute; reflexivity|].
  intros Heq. apply (f_equal (fun l => l !! 2000%nat)) in Heq.
  vm_compute in Heq. discriminate Heq.
Qed.

(** C2, as the code has it. The loop of [receive_from_twilio] is at a
    receive, with fewer than 3200 bytes in its buffer, and a sequence of
    media chunks of the inbound track arrives. The chunks that arrive within
    the receive timeout are framed; a chunk that arrives after 5 s of
    silence is not. While the chunks are handled, and before anything that
    follows them, the loop puts frames into [audio_queue] and does the bare
    receives of its timeout handler, nothing else; each frame has exactly
    3200 bytes; the concatenation of the frames is the buffer followed by
    the chunks received in time, cut at the largest multiple of 3200; the
    bytes beyond it stay in the buffer for what comes next; and when the
    stream then stops, nothing more is put: the remainder is not flushed.
    When every chunk arrives in time, all input is framed and the loop does
    nothing but put the frames. *)
Theorem framer_whole_frames_only connections (chunks : list inbound_chunk)
    (st : connection_state) (inbuffer : bytes) :
  connection_active st = true ->
  (length inbuffer < 3200)%nat ->
  exists o : list effect,
    (forall rest : list (Z * ws_item),
       twilio_loop connections ((media_arrival <$> chunks) ++ rest) st inbuffer
       = emit o
           (twilio_loop connections rest (after_chunks (in_time chunks) st)
              (drop (whole_frames (framer_input inbuffer chunks))
                 (framer_input inbuffer chunks))))
    /\ Forall put_or_probe o
    /\ concat (frames_put o)
       = take (whole_frames (framer_input inbuffer chunks)) (framer_input inbuffer chunks)
    /\ Forall (fun frame => length frame = 3200%nat) (frames_put o)
    /\ BUFFER_SIZE = 3200%nat
    /\ (length (drop (whole_frames (framer_input inbuffer chunks))
                  (framer_input inbuffer chunks)) < 3200)%nat
    /\ out (twilio_loop connections ((media_arrival <$> chunks) ++ [stop_arrival])
              st inbuffer) = o
    /\ leftover (twilio_loop connections ((media_arrival <$> chunks) ++ [stop_arrival])
                   st inbuffer)
       = drop (whole_frames (framer_input inbuffer chunks)) (framer_input inbuffer chunks)
    /\ (Forall (fun c => c_wait c < RECEIVE_TIMEOUT_MS) chunks ->
        framer_input inbuffer chunks = inbuffer ++ input_bytes chunks
        /\ o = AudioQueuePut <$> frames_put o).
Proof.
  rewrite <- BUFFER_SIZE_eq. intros Hactive Hlen.
  destruct (drain_frames_spec (framer_input inbuffer chunks)) as (_ & Hsize & Hrest).
  destruct (drain_frames_take_drop (framer_input inbuffer chunks)) as [Htake Hdrop].
  fold (whole_frames (framer_input inbuffer chunks)) in Htake, Hdrop.
  destruct (twilio_loop_chunks connections chunks st inbuffer Hactive Hlen)
    as (o & Hloop & Hframes & Hshape & Hputs).
  exists o. rewrite Hframes, !Hloop, <- Hdrop.
  rewrite twilio_loop_stop
    by (rewrite after_chunks_active; exact Hactive).
  repeat split; try assumption.
  - apply app_nil_r.
  - unfold framer_input. now rewrite in_time_all.
  - rewrite <- Hframes. auto.
Qed.

(** Two chunks in time, 3500 bytes together. *)
Definition two_chunks : list inbound_chunk :=
  [ {| c_wait := 0; c_timestamp := 0; c_payload := repeat Byte.x01 2000 |};
    {| c_wait := 20; c_timestamp := 250; c_payload := repeat Byte.x02 1500 |} ].

Lemma framer_whole_frames_only_witness :
  exists o : list effect,
    twilio_loop ∅ ((media_arrival <$> stalled_chunks) ++ []) initial_state []
    = emit o
        (twilio_loop ∅ [] (after_chunks (in_time stalled_chunks) initial_state)
           (drop (whole_frames (framer_input [] stalled_chunks))
              (framer_input [] stalled_chunks)))
    /\ Forall put_or_probe o
    /\ concat (frames_put o)
       = take (whole_frames (framer_input [] stalled_chunks))
           (framer_input [] stalled_chunks)
    /\ Forall (fun frame => length frame = 3200%nat) (frames_put o).
Proof.
  destruct (framer_whole_frames_only ∅ stalled_chunks initial_state [])
    as (o & Hloop & Hshape & Hframes & Hsize & _).
  - reflexivity.
  - cbn. lia.
  - exists o. exact (conj (Hloop []) (conj Hshape (conj Hframes Hsize))).
Defined.

(** ** The agent loop *)

Lemma a_emit_nil (r : agent_run) : a_emit [] r = r.
Proof. now destruct r. Qed.

(** One turn of the [async for] loop while the connection is active. *)
Lemma receive_from_deepgram_cons connections message items st :
  connection_active st = true ->
  receive_from_deepgram connections (AgMessage message :: items) st =
    match on_deepgram_message connections message st with
    | AgentNext connections st o => a_emit o (receive_from_deepgram connections items st)
    | AgentExit connections st o =>
        {| a_store := connections; a_final := st; a_out := o |}
    end.
Proof. intros Hactive. cbn [receive_from_deepgram]. now rewrite Hactive. Qed.

Lemma on_user_started_speaking_event connections data st :
  d_type data = Some "UserStartedSpeaking" ->
  on_deepgram_message connections (DgStr (DgJson data)) st =
    on_user_started_speaking connections st.
Proof. intros Htype. cbn [on_deepgram_message on_deepgram_text]. now rewrite Htype. Qed.

(** C1. A "UserStartedSpeaking" event from the agent. When [stream_sid] and
    [last_assistant_item] are set (true for Python, as the code tests them:
    neither [None] nor empty) and [response_start_timestamp_twilio] is not
    [None], the relay sends one conversation.item.truncate with that item
    and [audio_end_ms = latest_media_timestamp - response_start], then one
    clear to the telephony socket, and empties [mark_queue] and unsets the
    two fields. When [last_assistant_item] is not set, nothing is sent and
    the three fields keep their values. *)
Theorem barge_in_truncates_and_clears connections data st :
  d_type data = Some "UserStartedSpeaking" ->
  (forall response_start,
     Py.truthy (stream_sid st) = true ->
     Py.truthy (last_assistant_item st) = true ->
     response_start_timestamp_twilio st = Some response_start ->
     exists st',
       on_deepgram_message connections (DgStr (DgJson data)) st
       = AgentNext connections st'
           [DeepgramSend (OutTruncate (last_assistant_item st) 0
                            (latest_media_timestamp st - response_start));
            TwilioSend (OutClear (stream_sid st))]
       /\ mark_queue st' = []
       /\ last_assistant_item st' = None
       /\ response_start_timestamp_twilio st' = None)
  /\ (Py.truthy (last_assistant_item st) = false ->
      exists st',
        on_deepgram_message connections (DgStr (DgJson data)) st
        = AgentNext connections st' []
        /\ mark_queue st' = mark_queue st
        /\ last_assistant_item st' = last_assistant_item st
        /\ response_start_timestamp_twilio st' = response_start_timestamp_twilio st).
Proof.
  intros Htype. rewrite on_user_started_speaking_event by assumption.
  unfold on_user_started_speaking. split.
  - intros response_start Hsid Hitem Hstart. cbn. rewrite Hstart, Hsid, Hitem.
    eexists. split; [reflexivity|]. cbn. auto.
  - intros Hitem. cbn. rewrite Hitem, andb_false_r.
    exists (set_speech_started true st).
    split; [now destruct (response_start_timestamp_twilio st)|]. cbn. auto.
Qed.

(** The scenario of the specification: the agent is mid-utterance with item
    "abc" started at 100 ms, the media timestamp has advanced to 650 ms. *)
Definition mid_utterance : connection_state :=
  {| call_sid := Some "CA1"; caller_phone := "Unknown"; stream_sid := Some "MZ1";
     latest_media_timestamp := 650; mark_queue := ["responsePart"; "responsePart"];
     connection_active := true; start_data := None; speech_started := false;
     last_assistant_item := Some "abc";
     response_start_timestamp_twilio := Some 100 |}.

Definition user_started_speaking : deepgram_data :=
  {| d_type := Some "UserStartedSpeaking"; d_role := None; d_content := None;
     d_item_id := None; d_name := None; d_parameters := ParamsAbsent |}.

Lemma barge_in_truncates_and_clears_witness :
  (exists st',
     on_deepgram_message ∅ (DgStr (DgJson user_started_speaking)) mid_utterance
     = AgentNext ∅ st'
         [DeepgramSend (OutTruncate (Some "abc") 0 550);
          TwilioSend (OutClear (Some "MZ1"))]
     /\ mark_queue st' = []
     /\ last_assistant_item st' = None
     /\ response_start_timestamp_twilio st' = None)
  /\ (exists st',
        on_deepgram_message ∅ (DgStr (DgJson user_started_speaking)) initial_state
        = AgentNext ∅ st' []
        /\ mark_queue st' = mark_queue initial_state
        /\ last_assistant_item st' = last_assistant_item initial_state
        /\ response_start_timestamp_twilio st' =
           response_start_timestamp_twilio initial_state).
Proof.
  split.
  - apply (proj1 (barge_in_truncates_and_clears ∅ user_started_speaking
                    mid_utterance eq_refl) 100); reflexivity.
  - apply (proj2 (barge_in_truncates_and_clears ∅ user_started_speaking
                    initial_state eq_refl)); reflexivity.
Defined.

(** C9. A binary audio frame from the agent while [stream_sid] is unset is
    dropped: nothing is sent to the telephony socket, no mark is queued, the
    state is as before and the loop goes on with the next message. *)
Theorem audio_before_stream_start_dropped connections audio items st :
  stream_sid st = None ->
  on_deepgram_message connections (DgBinary audio) st = AgentNext connections st []
  /\ send_mark st = (st, [])
  /\ (connection_active st = true ->
      receive_from_deepgram connections (AgMessage (DgBinary audio) :: items) st
      = receive_from_deepgram connections items st).
Proof.
  intros Hsid.
  assert (Hstep : on_deepgram_message connections (DgBinary audio) st
                  = AgentNext connections st []).
  { cbn [on_deepgram_message]. unfold on_deepgram_binary. now rewrite Hsid. }
  repeat split.
  - exact Hstep.
  - unfold send_mark. now rewrite Hsid.
  - intros Hactive. rewrite receive_from_deepgram_cons, Hstep by assumption.
    apply a_emit_nil.
Qed.

Lemma audio_before_stream_start_dropped_witness :
  on_deepgram_message ∅ (DgBinary [Byte.x7f; Byte.xff]) initial_state
  = AgentNext ∅ initial_state []
  /\ send_mark initial_state = (initial_state, [])
  /\ receive_from_deepgram ∅
       [AgMessage (DgBinary [Byte.x7f; Byte.xff]);
        AgMessage (DgStr (DgJson user_started_speaking))] initial_state
     = receive_from_deepgram ∅
         [AgMessage (DgStr (DgJson user_started_speaking))] initial_state.
Proof.
  destruct (audio_before_stream_start_dropped ∅ [Byte.x7f; Byte.xff]
              [AgMessage (DgStr (DgJson user_started_speaking))] initial_state
              eq_refl) as (Hstep & Hmark & Hloop).
  exact (conj Hstep (conj Hmark (Hloop eq_refl))).
Defined.

(** ** Malformed JSON on the two legs *)

Lemma malformed_agent_message_skipped connections items st :
  connection_active st = true ->
  receive_from_deepgram connections (AgMessage (DgStr DgMalformed) :: items) st
  = receive_from_deepgram connections items st.
Proof.
  intros Hactive. rewrite receive_from_deepgram_cons by assumption.
  cbn [on_deepgram_message on_deepgram_text]. apply a_emit_nil.
Qed.

Lemma malformed_twilio_message_fatal connections wait rest st inbuffer :
  connection_active st = true ->
  wait < RECEIVE_TIMEOUT_MS ->
  twilio_loop connections ((wait, WsText TwMalformed) :: rest) st inbuffer
  = {| final := set_connection_active false st; out := [];
       status := Returned; leftover := inbuffer |}.
Proof.
  intros Hactive Hwait. rewrite twilio_loop_cons by assumption.
  apply Z.ltb_lt in Hwait. now rewrite Hwait.
Qed.

Definition mark_arrival : Z * ws_item := (0, WsText (TwJson EvMark)).

(** C3, at a text frame that is no JSON. On the agent leg the frame is
    skipped and the audio frame after it is forwarded. On the telephony leg
    the same fault ends the loop: [connection_active] becomes false and the
    mark event that follows is never handled (both marks stay queued). *)
Theorem malformed_telephony_json_ends_call :
  a_out (receive_from_deepgram ∅
           [AgMessage (DgStr DgMalformed); AgMessage (DgBinary [Byte.x7f])]
           mid_utterance)
  = [TwilioSend (OutMedia (Some "MZ1") [Byte.x7f]);
     TwilioSend (OutMark (Some "MZ1") "responsePart")]
  /\ connection_active
       (a_final (receive_from_deepgram ∅
                   [AgMessage (DgStr DgMalformed); AgMessage (DgBinary [Byte.x7f])]
                   mid_utterance)) = true
  /\ twilio_loop ∅ [(0, WsText TwMalformed); mark_arrival] mid_utterance []
     = {| final := set_connection_active false mid_utterance; out := [];
          status := Returned; leftover := [] |}
  /\ mark_queue
       (final (twilio_loop ∅ [(0, WsText TwMalformed); mark_arrival] mid_utterance []))
     = ["responsePart"; "responsePart"]
  /\ mark_queue (final (twilio_loop ∅ [mark_arrival; stop_arrival] mid_utterance []))
     = ["responsePart"].
Proof. repeat split; reflexivity. Qed.

(** ** The two fields of the utterance in flight *)

Definition twilio_after (r : step_result) : connection_state :=
  match r with
  | Next st _ _ => st
  | Exit st _ => st
  end.

Definition agent_after (r : agent_step) : connection_state :=
  match r with
  | AgentNext _ st _ => st
  | AgentExit _ st _ => st
  end.

(** Every way the relay changes [connection_state] once the call is set up:
    a telephony message is handled, an agent message is handled, the start
    data are taken over when [receive_from_twilio] begins, or a loop is left
    on a closed connection, a timeout or an exception. *)
Inductive relay_step (st : connection_state) : connection_state -> Prop :=
| step_twilio connections message inbuffer :
    relay_step st (twilio_after (on_twilio_text connections message st inbuffer))
| step_agent connections message :
    relay_step st (agent_after (on_deepgram_message connections message st))
| step_stream_started sid :
    relay_step st (set_latest_media_timestamp 0 (set_stream_sid (Some sid) st))
| step_closed :
    relay_step st (set_connection_active false st).

(** Whenever no start timestamp is recorded, no item is recorded either. *)
Definition utterance_inv (st : connection_state) : Prop :=
  response_start_timestamp_twilio st = None -> last_assistant_item st = None.

(** What a step can do to the pair (item, start timestamp). *)
Inductive utterance_change (st st' : connection_state) : Prop :=
| utterance_kept :
    last_assistant_item st' = last_assistant_item st ->
    response_start_timestamp_twilio st' = response_start_timestamp_twilio st ->
    utterance_change st st'
| utterance_cleared :
    last_assistant_item st' = None ->
    response_start_timestamp_twilio st' = None ->
    utterance_change st st'
| utterance_text (item_id : option string) :
    last_assistant_item st' = item_id ->
    response_start_timestamp_twilio st' =
      match response_start_timestamp_twilio st with
      | None => Some (latest_media_timestamp st)
      | Some t => Some t
      end ->
    utterance_change st st'.

(** The two frequent cases of a handler's branch. *)
Ltac kept := now apply utterance_kept.
Ltac cleared := now apply utterance_cleared.

Lemma on_twilio_text_utterance connections message st inbuffer :
  utterance_change st (twilio_after (on_twilio_text connections message st inbuffer)).
Proof.
  destruct message as [|data]; [kept|].
  destruct data as [media|start| | |event|]; cbn [on_twilio_text];
    try (kept).
  - unfold on_media.
    destruct media as [m|]; [|kept].
    destruct (m_timestamp m); try (kept);
      (destruct (m_payload m) as [chunk|]; [|kept];
       destruct (decide (m_track m = Some "inbound")); [|kept];
       destruct (drain_frames (inbuffer ++ chunk)); kept).
  - unfold handle_start_event.
    destruct start as [s|]; [|kept].
    destruct (s_streamSid s) as [sid|]; [|kept].
    cleared.
  - destruct (Py.pop0 (mark_queue st)) as [[x q]|]; kept.
Qed.

Lemma on_deepgram_message_utterance connections message st :
  utterance_change st (agent_after (on_deepgram_message connections message st)).
Proof.
  destruct message as [[|data]|audio]; cbn [on_deepgram_message on_deepgram_text].
  - kept.
  - destruct (d_type data) as [event|]; [|kept].
    destruct (String.eqb (Py.lower event) "conversationtext").
    { unfold on_conversation_text.
      destruct (d_role data) as [r|]; [|kept].
      destruct (d_content data) as [c|]; [|kept].
      destruct (Py.truthy (Some r) && Py.truthy (Some c)); [|kept].
      destruct (String.eqb r "assistant"); [|kept].
      cbn. destruct (response_start_timestamp_twilio st) as [t|] eqn:Hstart.
      - apply (utterance_text _ _ (d_item_id data)); cbn; [reflexivity|].
        now rewrite Hstart.
      - apply (utterance_text _ _ (d_item_id data)); cbn; [reflexivity|].
        now rewrite Hstart. }
    destruct (String.eqb (Py.lower event) "functioncall").
    { unfold on_function_call.
      destruct (decide (d_name data = Some "store_contact_info"));
        [destruct (d_parameters data)|]; kept. }
    destruct (String.eqb event "UserStartedSpeaking"); [|kept].
    unfold on_user_started_speaking. cbn.
    destruct (response_start_timestamp_twilio st) as [t|]; [|kept].
    destruct (Py.truthy (stream_sid st) && Py.truthy (last_assistant_item st));
      [cleared|kept].
  - unfold on_deepgram_binary, send_mark. cbn [stream_sid set_speech_started].
    destruct (Py.truthy (stream_sid st)); cbn; kept.
Qed.

Lemma relay_step_utterance st st' :
  relay_step st st' -> utterance_change st st'.
Proof.
  intros [connections message inbuffer|connections message|sid|].
  - apply on_twilio_text_utterance.
  - apply on_deepgram_message_utterance.
  - kept.
  - kept.
Qed.

Lemma utterance_inv_initial : utterance_inv initial_state.
Proof. intros _. reflexivity. Qed.

Lemma relay_steps_utterance_inv st st' :
  rtc relay_step st st' -> utterance_inv st -> utterance_inv st'.
Proof.
  induction 1 as [st|st st1 st2 Hstep _ IH]; [auto|].
  intros Hinv. apply IH. unfold utterance_inv in *.
  destruct (relay_step_utterance _ _ Hstep) as [Hitem Hstart|Hitem Hstart|item Hitem Hstart].
  - rewrite Hitem, Hstart. exact Hinv.
  - auto.
  - rewrite Hstart. now destruct (response_start_timestamp_twilio st).
Qed.

(** A conversation text of the assistant that carries no [item_id]. *)
Definition assistant_text (item_id : option string) : deepgram_data :=
  {| d_type := Some "ConversationText"; d_role := Some "assistant";
     d_content := Some "Hello!"; d_item_id := item_id; d_name := None;
     d_parameters := ParamsAbsent |}.

Definition outbound_media (timestamp : Z) : twilio_text :=
  TwJson (EvMedia (Some {| m_timestamp := TsValue timestamp; m_track := Some "outbound";
                           m_payload := Some [] |})).

(** The state [mid_utterance] is one the relay reaches: stream start, media
    at 100 ms, a conversation text of the assistant with item "abc", two
    audio frames, media at 650 ms. *)
Lemma mid_utterance_reachable : rtc relay_step initial_state mid_utterance.
Proof.
  eapply rtc_l.
  { apply (step_twilio _ ∅
             (TwJson (EvStart (Some {| s_streamSid := Some "MZ1";
                                       s_callSid := Some "CA1" |}))) []). }
  eapply rtc_l; [apply (step_twilio _ ∅ (outbound_media 100) [])|].
  eapply rtc_l; [apply (step_agent _ ∅ (DgStr (DgJson (assistant_text (Some "abc")))))|].
  eapply rtc_l; [apply (step_agent _ ∅ (DgBinary [Byte.x7f]))|].
  eapply rtc_l; [apply (step_agent _ ∅ (DgBinary [Byte.x7f]))|].
  eapply rtc_l; [apply (step_twilio _ ∅ (outbound_media 650) [])|].
  apply rtc_refl.
Qed.

(** C8, against the claim as it is stated: a conversation text of the
    assistant without [item_id], received mid-utterance, unsets
    [last_assistant_item] and leaves [response_start_timestamp_twilio] at
    100. *)
Lemma item_unset_without_timestamp :
  relay_step mid_utterance
    (agent_after (on_deepgram_message ∅ (DgStr (DgJson (assistant_text None)))
                    mid_utterance))
  /\ last_assistant_item mid_utterance = Some "abc"
  /\ last_assistant_item
       (agent_after (on_deepgram_message ∅ (DgStr (DgJson (assistant_text None)))
                       mid_utterance)) = None
  /\ response_start_timestamp_twilio
       (agent_after (on_deepgram_message ∅ (DgStr (DgJson (assistant_text None)))
                       mid_utterance)) = Some 100.
Proof. split; [apply step_agent|]. repeat split; reflexivity. Qed.

(** The two fields that identify the utterance in flight. *)
Definition utterance (st : connection_state) : option string * option Z :=
  (last_assistant_item st, response_start_timestamp_twilio st).

(** A conversation text that is recorded for the assistant: the type is
    "ConversationText" in any letter case, the role is "assistant" and the
    content is not empty. *)
Definition assistant_speaks (data : deepgram_data) : bool :=
  match d_type data, d_role data, d_content data with
  | Some event, Some r, Some c =>
      String.eqb (Py.lower event) "conversationtext"
      && String.eqb r "assistant" && Py.truthy (Some c)
  | _, _, _ => false
  end.

(** A barge-in that is acted upon: the event is "UserStartedSpeaking" and
    the stream id, the item and the start timestamp are set. *)
Definition barge_in (data : deepgram_data) (st : connection_state) : bool :=
  match d_type data, response_start_timestamp_twilio st with
  | Some event, Some _ =>
      String.eqb event "UserStartedSpeaking"
      && Py.truthy (stream_sid st) && Py.truthy (last_assistant_item st)
  | _, _ => false
  end.

(** A telephony start event that carries its ["streamSid"]. *)
Definition stream_starts (message : twilio_text) : bool :=
  match message with
  | TwJson (EvStart (Some s)) =>
      match s_streamSid s with Some _ => true | None => false end
  | _ => false
  end.

Lemma lower_not_user_started_speaking (event other : string) :
  String.eqb (Py.lower event) other = true ->
  other <> "userstartedspeaking" ->
  String.eqb event "UserStartedSpeaking" = false.
Proof.
  intros Hlower Hother. apply String.eqb_eq in Hlower. apply String.eqb_neq.
  intros ->. apply Hother. rewrite <- Hlower. reflexivity.
Qed.

Lemma on_deepgram_message_utterance_exact connections message st :
  utterance (agent_after (on_deepgram_message connections message st))
  = match message with
    | DgStr (DgJson data) =>
        if assistant_speaks data then
          (d_item_id data,
           Some (default (latest_media_timestamp st) (response_start_timestamp_twilio st)))
        else if barge_in data st then (None, None)
        else utterance st
    | _ => utterance st
    end.
Proof.
  destruct message as [[|data]|audio]; cbn [on_deepgram_message on_deepgram_text].
  - reflexivity.
  - unfold assistant_speaks, barge_in.
    destruct (d_type data) as [event|]; [|reflexivity].
    destruct (String.eqb (Py.lower event) "conversationtext") eqn:Htext.
    { rewrite (lower_not_user_started_speaking _ _ Htext) by discriminate.
      unfold on_conversation_text.
      replace (match response_start_timestamp_twilio st with
               | Some _ => false && Py.truthy (stream_sid st)
                           && Py.truthy (last_assistant_item st)
               | None => false
               end) with false by (now destruct (response_start_timestamp_twilio st)).
      destruct (d_role data) as [r|]; [|reflexivity].
      destruct (d_content data) as [c|]; [|reflexivity].
      cbn [andb].
      destruct (String.eqb r "assistant") eqn:Hrole.
      - apply String.eqb_eq in Hrole. subst r.
        change (Py.truthy (Some "assistant")) with true. cbn [andb].
        destruct (Py.truthy (Some c)); [|reflexivity].
        change (response_start_timestamp_twilio
                  (set_last_assistant_item (d_item_id data) st))
          with (response_start_timestamp_twilio st).
        destruct (response_start_timestamp_twilio st) as [t|] eqn:Hstart;
          unfold utterance; cbn; rewrite ?Hstart; reflexivity.
      - now destruct (Py.truthy (Some r) && Py.truthy (Some c)). }
    replace (match d_role data with
             | Some r =>
                 match d_content data with
                 | Some c => false && String.eqb r "assistant" && Py.truthy (Some c)
                 | None => false
                 end
             | None => false
             end) with false
      by (destruct (d_role data); [destruct (d_content data)|]; reflexivity).
    destruct (String.eqb (Py.lower event) "functioncall") eqn:Hcall.
    { rewrite (lower_not_user_started_speaking _ _ Hcall) by discriminate.
      replace (match response_start_timestamp_twilio st with
               | Some _ => false && Py.truthy (stream_sid st)
                           && Py.truthy (last_assistant_item st)
               | None => false
               end) with false by (now destruct (response_start_timestamp_twilio st)).
      unfold on_function_call.
      destruct (decide (d_name data = Some "store_contact_info"));
        [now destruct (d_parameters data)|reflexivity]. }
    destruct (String.eqb event "UserStartedSpeaking").
    + unfold on_user_started_speaking. cbn.
      destruct (response_start_timestamp_twilio st) as [t|]; [|reflexivity].
      now destruct (Py.truthy (stream_sid st) && Py.truthy (last_assistant_item st)).
    + now destruct (response_start_timestamp_twilio st).
  - unfold on_deepgram_binary, send_mark. cbn [stream_sid set_speech_started].
    now destruct (Py.truthy (stream_sid st)).
Qed.

Lemma on_twilio_text_utterance_exact connections message st inbuffer :
  utterance (twilio_after (on_twilio_text connections message st inbuffer))
  = if stream_starts message then (None, None) else utterance st.
Proof.
  destruct message as [|data]; [reflexivity|].
  destruct data as [media|start| | |event|]; cbn [on_twilio_text stream_starts];
    try reflexivity.
  - unfold on_media.
    destruct media as [m|]; [|reflexivity].
    destruct (m_timestamp m); try reflexivity;
      (destruct (m_payload m) as [chunk|]; [|reflexivity];
       destruct (decide (m_track m = Some "inbound")); [|reflexivity];
       now destruct (drain_frames (inbuffer ++ chunk))).
  - unfold handle_start_event.
    destruct start as [s|]; [|reflexivity].
    now destruct (s_streamSid s) as [sid|].
  - now destruct (Py.pop0 (mark_queue st)) as [[x q]|].
Qed.

(** A conversation text of the assistant whose content is empty. *)
Definition empty_assistant_text (item_id : option string) : deepgram_data :=
  {| d_type := Some "ConversationText"; d_role := Some "assistant";
     d_content := Some ""; d_item_id := item_id; d_name := None;
     d_parameters := ParamsAbsent |}.

(** C8, as the code has it. What each message does to the two fields is
    fixed by three cases. A conversation text of the assistant with a
    content that is not empty overwrites [last_assistant_item] with its
    [item_id] (unsetting it when it has none) and assigns the start
    timestamp only when that is unset, and then it is the media timestamp
    of that moment. A barge-in that is acted upon, and a telephony start
    event that carries its stream id, clear both fields. No other message from
    the agent (an audio frame, a text of the user or with an empty content,
    a function call, any other event) and no other telephony message
    changes either field: nothing clears them when an utterance completes.
    Hence, in every step of the relay, a recorded start timestamp is never
    replaced by another one, whenever a step unsets the start timestamp it
    unsets [last_assistant_item] with it, and in every state the relay
    reaches an unset start timestamp goes with an unset item. *)
Theorem start_timestamp_set_once_cleared_with_item :
  (forall connections message st,
     utterance (agent_after (on_deepgram_message connections message st))
     = match message with
       | DgStr (DgJson data) =>
           if assistant_speaks data then
             (d_item_id data,
              Some (default (latest_media_timestamp st)
                      (response_start_timestamp_twilio st)))
           else if barge_in data st then (None, None)
           else utterance st
       | _ => utterance st
       end)
  /\ (forall connections message st inbuffer,
        utterance (twilio_after (on_twilio_text connections message st inbuffer))
        = if stream_starts message then (None, None) else utterance st)
  /\ (forall st st', relay_step st st' ->
        (forall t, response_start_timestamp_twilio st = Some t ->
           response_start_timestamp_twilio st' = Some t
           \/ (response_start_timestamp_twilio st' = None
               /\ last_assistant_item st' = None))
        /\ (response_start_timestamp_twilio st = None ->
            response_start_timestamp_twilio st' = None
            \/ response_start_timestamp_twilio st' = Some (latest_media_timestamp st))
        /\ (utterance_inv st -> utterance_inv st'))
  /\ (forall st, rtc relay_step initial_state st -> utterance_inv st).
Proof.
  split; [exact on_deepgram_message_utterance_exact|].
  split; [exact on_twilio_text_utterance_exact|].
  split.
  - intros st st' Hstep. repeat split.
    + intros t Ht.
      destruct (relay_step_utterance _ _ Hstep) as [_ Hstart|Hitem Hstart|item _ Hstart].
      * left. congruence.
      * right. auto.
      * left. rewrite Hstart, Ht. reflexivity.
    + intros Hnone.
      destruct (relay_step_utterance _ _ Hstep) as [_ Hstart|_ Hstart|item _ Hstart].
      * left. congruence.
      * left. assumption.
      * right. rewrite Hstart, Hnone. reflexivity.
    + apply relay_steps_utterance_inv. now apply rtc_once.
  - intros st Hreach. eapply relay_steps_utterance_inv; [exact Hreach|].
    apply utterance_inv_initial.
Qed.

(** Mid-utterance (item "abc", start timestamp 100): a barge-in clears both
    fields, a text of the assistant with an empty content changes neither,
    and the state is one the relay reaches. *)
Lemma start_timestamp_set_once_cleared_with_item_witness :
  (response_start_timestamp_twilio
     (agent_after (on_deepgram_message ∅ (DgStr (DgJson user_started_speaking))
                     mid_utterance)) = Some 100
   \/ (response_start_timestamp_twilio
         (agent_after (on_deepgram_message ∅ (DgStr (DgJson user_started_speaking))
                         mid_utterance)) = None
       /\ last_assistant_item
            (agent_after (on_deepgram_message ∅ (DgStr (DgJson user_started_speaking))
                            mid_utterance)) = None))
  /\ utterance
       (agent_after (on_deepgram_message ∅
                       (DgStr (DgJson (empty_assistant_text (Some "new"))))
                       mid_utterance))
     = (Some "abc", Some 100)
  /\ utterance_inv mid_utterance.
Proof.
  destruct start_timestamp_set_once_cleared_with_item
    as (Hagent & _ & Hstep & Hreach).
  split; [|split].
  - apply (proj1 (Hstep mid_utterance _
                    (step_agent mid_utterance ∅
                       (DgStr (DgJson user_started_speaking)))) 100).
    reflexivity.
  - exact (Hagent ∅ (DgStr (DgJson (empty_assistant_text (Some "new")))) mid_utterance).
  - apply (Hreach mid_utterance). exact mid_utterance_reachable.
Defined.

(** ** The mark queue *)

(** The discipline of [mark_queue], whatever its entries are: [append] at
    the end, and [if queue: queue.pop(0)] at the front. *)
Section QueueDiscipline.

Context {A : Type}.

Inductive queue_op :=
| QAppend (a : A)
| QPop.

(** The entries popped, in the order they were popped, and the queue left. *)
Fixpoint queue_run (ops : list queue_op) (q : list A) : list A * list A :=
  match ops with
  | [] => ([], q)
  | QAppend a :: ops => queue_run ops (Py.append q a)
  | QPop :: ops =>
      match Py.pop0 q with
      | Some (x, q') => let '(popped, final) := queue_run ops q' in (x :: popped, final)
      | None => queue_run ops q
      end
  end.

Definition appended (ops : list queue_op) : list A :=
  omap (fun op => match op with QAppend a => Some a | QPop => None end) ops.

Fixpoint pops (ops : list queue_op) : nat :=
  match ops with
  | [] => 0
  | QAppend _ :: ops => pops ops
  | QPop :: ops => S (pops ops)
  end.

(** Every pop of the run finds an entry, when [pending] entries are queued
    at its start. *)
Fixpoint always_pending (pending : nat) (ops : list queue_op) : bool :=
  match ops with
  | [] => true
  | QAppend _ :: ops => always_pending (S pending) ops
  | QPop :: ops =>
      match pending with
      | O => false
      | S pending => always_pending pending ops
      end
  end.

Lemma queue_run_fifo (ops : list queue_op) (q : list A) :
  (queue_run ops q).1 ++ (queue_run ops q).2 = q ++ appended ops.
Proof.
  revert q. induction ops as [|[a|] ops IH]; intros q.
  - cbn. now rewrite app_nil_r.
  - cbn [queue_run]. rewrite IH. unfold Py.append.
    now rewrite <- app_assoc.
  - cbn [queue_run]. destruct q as [|x q]; cbn [Py.pop0].
    + apply IH.
    + specialize (IH q). destruct (queue_run ops q) as [popped final].
      cbn in *. now rewrite IH.
Qed.

Lemma queue_run_pops (ops : list queue_op) (q : list A) :
  always_pending (length q) ops = true ->
  length (queue_run ops q).1 = pops ops.
Proof.
  revert q. induction ops as [|[a|] ops IH]; intros q Hpending.
  - reflexivity.
  - cbn [queue_run]. rewrite IH; [reflexivity|].
    unfold Py.append. rewrite length_app, Nat.add_1_r. exact Hpending.
  - cbn [queue_run]. destruct q as [|x q]; [discriminate|].
    cbn [Py.pop0]. specialize (IH q Hpending).
    destruct (queue_run ops q) as [popped final]. cbn in *. now rewrite IH.
Qed.

(** First in, first out: the entries popped are the first entries of the
    queue followed by the appended ones, in that order. *)
Lemma queue_run_popped_prefix (ops : list queue_op) (q : list A) :
  (queue_run ops q).1 = take (length (queue_run ops q).1) (q ++ appended ops)
  /\ (queue_run ops q).2 = drop (length (queue_run ops q).1) (q ++ appended ops).
Proof.
  rewrite <- queue_run_fifo.
  now rewrite take_app_length, drop_app_length.
Qed.

End QueueDiscipline.

Arguments queue_op : clear implicits.

(** The two operations of the relay on [mark_queue]: [send_mark] after an
    audio frame was forwarded, and the handling of a telephony mark event. *)
Inductive mark_op :=
| SendMark
| AckMark.

Definition ack_mark (st : connection_state) : connection_state :=
  twilio_after (on_twilio_text ∅ (TwJson EvMark) st []).

(** The entry that [mark_queue.pop(0)] returns in the handling of a mark
    event (the code drops it). *)
Definition popped_by_ack (st : connection_state) : list string :=
  match Py.pop0 (mark_queue st) with
  | Some (x, _) => [x]
  | None => []
  end.

Record mark_trace := {
  sent : list string;          (* names of the mark messages sent, in order *)
  popped : list string;        (* entries popped by mark events, in order *)
  marks_left : connection_state;
}.

Fixpoint mark_run (ops : list mark_op) (st : connection_state) : mark_trace :=
  match ops with
  | [] => {| sent := []; popped := []; marks_left := st |}
  | SendMark :: ops =>
      let '(st', o) := send_mark st in
      let r := mark_run ops st' in
      {| sent := omap (fun e => match e with
                                | TwilioSend (OutMark _ name) => Some name
                                | _ => None
                                end) o ++ sent r;
         popped := popped r; marks_left := marks_left r |}
  | AckMark :: ops =>
      let r := mark_run ops (ack_mark st) in
      {| sent := sent r; popped := popped_by_ack st ++ popped r;
         marks_left := marks_left r |}
  end.

Definition as_queue_op (op : mark_op) : queue_op string :=
  match op with
  | SendMark => QAppend "responsePart"
  | AckMark => QPop
  end.

Lemma ack_mark_stream_sid st : stream_sid (ack_mark st) = stream_sid st.
Proof.
  unfold ack_mark. cbn [on_twilio_text].
  now destruct (Py.pop0 (mark_queue st)) as [[x q]|].
Qed.

Lemma ack_mark_queue st :
  mark_queue (ack_mark st) =
    match Py.pop0 (mark_queue st) with
    | Some (_, q) => q
    | None => mark_queue st
    end.
Proof.
  unfold ack_mark. cbn [on_twilio_text].
  now destruct (Py.pop0 (mark_queue st)) as [[x q]|].
Qed.

(** The relay's handlers follow the queue discipline. *)
Lemma mark_run_refines (ops : list mark_op) (st : connection_state) :
  Py.truthy (stream_sid st) = true ->
  sent (mark_run ops st) = appended (as_queue_op <$> ops)
  /\ popped (mark_run ops st) = (queue_run (as_queue_op <$> ops) (mark_queue st)).1
  /\ mark_queue (marks_left (mark_run ops st))
     = (queue_run (as_queue_op <$> ops) (mark_queue st)).2.
Proof.
  revert st. induction ops as [|[|] ops IH]; intros st Hsid.
  - cbn. auto.
  - cbn [mark_run fmap list_fmap as_queue_op queue_run]. unfold send_mark. rewrite Hsid.
    destruct (IH (set_mark_queue (Py.append (mark_queue st) "responsePart") st) Hsid)
      as (Hsent & Hpopped & Hleft).
    cbn. rewrite Hsent, Hpopped, Hleft. auto.
  - cbn [mark_run fmap list_fmap as_queue_op queue_run].
    destruct (IH (ack_mark st)) as (Hsent & Hpopped & Hleft);
      [now rewrite ack_mark_stream_sid|].
    cbn [sent popped marks_left]. rewrite Hsent, Hpopped, Hleft, ack_mark_queue.
    unfold popped_by_ack.
    destruct (mark_queue st) as [|x q]; cbn [Py.pop0 app]; [auto|].
    destruct (queue_run (as_queue_op <$> ops) q). cbn. auto.
Qed.

(** The number of mark events and of marks sent in an interleaving. *)
Fixpoint acks (ops : list mark_op) : nat :=
  match ops with
  | [] => 0
  | SendMark :: ops => acks ops
  | AckMark :: ops => S (acks ops)
  end.

Fixpoint sends (ops : list mark_op) : nat :=
  match ops with
  | [] => 0
  | SendMark :: ops => S (sends ops)
  | AckMark :: ops => sends ops
  end.

Lemma pops_as_queue_op (ops : list mark_op) :
  pops (as_queue_op <$> ops) = acks ops.
Proof.
  induction ops as [|[|] ops IH]; [reflexivity|exact IH|].
  change (S (pops (as_queue_op <$> ops)) = S (acks ops)). now rewrite IH.
Qed.

Lemma appended_as_queue_op (ops : list mark_op) :
  length (appended (as_queue_op <$> ops)) = sends ops.
Proof.
  induction ops as [|[|] ops IH]; [reflexivity| |exact IH].
  change (S (length (appended (as_queue_op <$> ops))) = S (sends ops)). now rewrite IH.
Qed.

(** Every mark event of the interleaving finds an entry to pop, when
    [pending] entries are queued at its start. *)
Definition each_ack_pops (pending : nat) (ops : list mark_op) : bool :=
  always_pending pending (as_queue_op <$> ops).

Example queue_run_order :
  queue_run [QAppend 1%nat; QAppend 2%nat; QPop; QAppend 3%nat; QPop] []
  = ([1%nat; 2%nat], [3%nat]).
Proof. reflexivity. Qed.

(** C7. For every interleaving of [send_mark] calls and telephony mark
    events: the entries popped, followed by those still queued, are the
    entries queued at the start followed by the marks sent, in that order, so
    that the popped entries are a prefix of them (the oldest first); one
    entry is queued per mark sent; when every mark event finds an entry
    (which implies that the M events are at most the N sends on a queue that
    starts empty) the popped entries are exactly the first M sent; and a
    mark event on an empty queue pops nothing and changes nothing.
    [queue_run_fifo] is the same order property for entries that can be told
    apart; the relay queues the one name "responsePart". *)
Theorem mark_queue_fifo (ops : list mark_op) (st : connection_state) :
  Py.truthy (stream_sid st) = true ->
  popped (mark_run ops st) ++ mark_queue (marks_left (mark_run ops st))
  = mark_queue st ++ sent (mark_run ops st)
  /\ length (sent (mark_run ops st)) = sends ops
  /\ (each_ack_pops (length (mark_queue st)) ops = true ->
      length (popped (mark_run ops st)) = acks ops)
  /\ (mark_queue st = [] ->
      each_ack_pops 0 ops = true ->
      (acks ops <= sends ops)%nat
      /\ popped (mark_run ops st) = take (acks ops) (sent (mark_run ops st))
      /\ mark_queue (marks_left (mark_run ops st))
         = drop (acks ops) (sent (mark_run ops st)))
  /\ (mark_queue st = [] -> ack_mark st = st /\ popped_by_ack st = []).
Proof.
  intros Hsid.
  destruct (mark_run_refines ops st Hsid) as (Hsent & Hpopped & Hleft).
  pose proof (queue_run_fifo (as_queue_op <$> ops) (mark_queue st)) as Hfifo.
  rewrite <- Hsent, <- Hpopped, <- Hleft in Hfifo.
  assert (Hcount : each_ack_pops (length (mark_queue st)) ops = true ->
                   length (popped (mark_run ops st)) = acks ops).
  { intros Hpending. rewrite Hpopped, <- pops_as_queue_op.
    now apply queue_run_pops. }
  split; [exact Hfifo|].
  split; [rewrite Hsent; apply appended_as_queue_op|].
  split; [exact Hcount|].
  split.
  - intros Hq Hpending. rewrite Hq in Hfifo, Hcount.
    cbn [app length] in Hfifo, Hcount. specialize (Hcount Hpending).
    rewrite <- Hcount, <- Hfifo. repeat split.
    + rewrite <- appended_as_queue_op, <- Hsent, <- Hfifo, length_app. lia.
    + symmetry. apply take_app_length.
    + symmetry. apply drop_app_length.
  - intros Hq. unfold ack_mark, popped_by_ack. cbn [on_twilio_text].
    rewrite Hq. auto.
Qed.

Definition streaming : connection_state :=
  set_stream_sid (Some "MZ1") initial_state.

Definition example_marks : list mark_op :=
  [SendMark; SendMark; AckMark; SendMark; AckMark].

Lemma mark_queue_fifo_witness :
  popped (mark_run example_marks streaming)
    ++ mark_queue (marks_left (mark_run example_marks streaming))
  = mark_queue streaming ++ sent (mark_run example_marks streaming)
  /\ length (sent (mark_run example_marks streaming)) = 3%nat
  /\ length (popped (mark_run example_marks streaming)) = 2%nat
  /\ popped (mark_run example_marks streaming)
     = take 2 (sent (mark_run example_marks streaming))
  /\ mark_queue (marks_left (mark_run example_marks streaming))
     = drop 2 (sent (mark_run example_marks streaming))
  /\ ack_mark streaming = streaming.
Proof.
  destruct (mark_queue_fifo example_marks streaming eq_refl)
    as (Hfifo & Hsent & Hpopped & Hfirst & Hempty).
  destruct (Hfirst eq_refl eq_refl) as (_ & Htake & Hdrop).
  exact (conj Hfifo (conj Hsent (conj (Hpopped eq_refl)
           (conj Htake (conj Hdrop (proj1 (Hempty eq_refl))))))).
Defined.

(** ** Timeouts on the telephony socket *)

(** C10. After a receive has timed out, whatever text frame the bare
    [receive_text()] of the handler gets, however late, is dropped unread:
    the loop goes on with the next receive in the same state and with the
    same buffer, and nothing was put or sent in between. A media, mark,
    start or stop event (or a frame that is no JSON) delivered there has no
    effect. *)
Theorem probe_message_discarded connections wait message rest st inbuffer :
  connection_active st = true ->
  RECEIVE_TIMEOUT_MS <= wait ->
  twilio_loop connections ((wait, WsText message) :: rest) st inbuffer
  = emit [ProbeReceive] (twilio_loop connections rest st inbuffer).
Proof. intros Hactive Hwait. now rewrite twilio_loop_timeout. Qed.

(** A stop event that arrives as the answer to the probe is lost: the mark
    event after it is still handled. *)
Lemma probe_message_discarded_witness :
  twilio_loop ∅ [(5000, WsText (TwJson EvStop)); mark_arrival] mid_utterance []
  = emit [ProbeReceive] (twilio_loop ∅ [mark_arrival] mid_utterance []).
Proof.
  apply (probe_message_discarded ∅ 5000 (TwJson EvStop) [mark_arrival] mid_utterance []).
  - reflexivity.
  - unfold RECEIVE_TIMEOUT_MS. lia.
Defined.

Example stop_as_probe_answer_lost :
  twilio_loop ∅ [(5000, WsText (TwJson EvStop)); mark_arrival] mid_utterance []
  = {| final := set_mark_queue ["responsePart"] mid_utterance;
       out := [ProbeReceive; ProbeReceive]; status := Blocked; leftover := [] |}.
Proof. reflexivity. Qed.

(** Twelve seconds of silence, then a mark event, then media at 7 ms. *)
Definition long_silence : list (Z * ws_item) :=
  [(12000, WsText (TwJson EvMark)); (0, WsText (outbound_media 7))].

(** C6, against the claim as it is stated: the socket stays silent for more
    than twice the timeout, so that a probe bounded by 5 s would time out
    too. The loop does not end: the late frame is what the probe receives,
    and the media event after it is handled; the connection stays active. *)
Lemma silence_beyond_two_timeouts_not_dead :
  connection_active (final (twilio_loop ∅ long_silence streaming [])) = true
  /\ status (twilio_loop ∅ long_silence streaming []) = Blocked
  /\ latest_media_timestamp (final (twilio_loop ∅ long_silence streaming [])) = 7
  /\ ~ (connection_active (final (twilio_loop ∅ long_silence streaming [])) = false
        /\ status (twilio_loop ∅ long_silence streaming []) = Returned).
Proof.
  split; [reflexivity|]. split; [reflexivity|]. split; [reflexivity|].
  intros [Hactive _]. discriminate Hactive.
Qed.

(** C6, as the code has it. A receive that times out (nothing within 5 s)
    is followed by exactly one more [receive_text()], which has no time
    bound. If that receive raises (the socket was closed, or any other
    error) [connection_active] becomes false and the loop ends. If it
    returns a frame, however late, the loop goes on. If nothing ever
    arrives, it never returns: the loop neither ends nor clears
    [connection_active]. *)
Theorem timeout_then_unbounded_probe connections wait item rest st inbuffer :
  connection_active st = true ->
  RECEIVE_TIMEOUT_MS <= wait ->
  twilio_loop connections ((wait, item) :: rest) st inbuffer
  = match item with
    | WsText _ => emit [ProbeReceive] (twilio_loop connections rest st inbuffer)
    | WsDisconnect | WsError =>
        {| final := set_connection_active false st; out := [ProbeReceive];
           status := Returned; leftover := inbuffer |}
    end
  /\ twilio_loop connections [] st inbuffer
     = {| final := st; out := [ProbeReceive]; status := Blocked; leftover := inbuffer |}.
Proof.
  intros Hactive Hwait. split.
  - now apply twilio_loop_timeout.
  - now apply twilio_loop_nil.
Qed.

Lemma timeout_then_unbounded_probe_witness :
  twilio_loop ∅ [(5000, WsDisconnect); mark_arrival] streaming []
  = {| final := set_connection_active false streaming; out := [ProbeReceive];
       status := Returned; leftover := [] |}
  /\ twilio_loop ∅ [] streaming []
     = {| final := streaming; out := [ProbeReceive]; status := Blocked; leftover := [] |}.
Proof.
  apply (timeout_then_unbounded_probe ∅ 5000 WsDisconnect [mark_arrival] streaming []).
  - reflexivity.
  - unfold RECEIVE_TIMEOUT_MS. lia.
Defined.

(** ** Connection set-up *)

Lemma initialize_connection_state_active connections first st st' :
  initialize_connection_state connections first st = Some st' ->
  connection_active st' = connection_active st.
Proof.
  unfold initialize_connection_state.
  destruct first as [[wait item]|]; [|now intros [= <-]].
  destruct (wait <? RECEIVE_TIMEOUT_MS); [|now intros [= <-]].
  destruct item as [[|data]| |]; try discriminate; [now intros [= <-]|].
  destruct data as [media|[s|]| | |event|]; try (now intros [= <-]).
  destruct (lookup_call _ connections) as [cd|]; [|now intros [= <-]].
  destruct (phone cd); now intros [= <-].
Qed.

Lemma handle_media_stream_events connections first outcome st :
  h_state (handle_media_stream connections first outcome) = Some st ->
  h_events (handle_media_stream connections first outcome)
  = retry_loop outcome (seq 0 max_retries) 1 true.
Proof.
  unfold handle_media_stream.
  destruct (initialize_connection_state connections first initial_state) as [st0|] eqn:Hinit;
    [|discriminate].
  intros _. cbn [h_events].
  now rewrite (initialize_connection_state_active _ _ _ _ Hinit).
Qed.

(** The number of connection attempts in a trace, and the time slept. *)
Fixpoint connects (events : list stream_event) : nat :=
  match events with
  | [] => 0
  | Connect _ :: events => S (connects events)
  | _ :: events => connects events
  end.

Fixpoint slept (events : list stream_event) : Z :=
  match events with
  | [] => 0
  | Sleep seconds :: events => seconds + slept events
  | _ :: events => slept events
  end.

Lemma connects_retry_loop outcome attempts retry_delay active :
  (connects (retry_loop outcome attempts retry_delay active) <= length attempts)%nat.
Proof.
  revert retry_delay.
  induction attempts as [|attempt attempts IH]; intros retry_delay; [reflexivity|].
  cbn [retry_loop connects length]. apply le_n_S.
  destruct (outcome attempt) as [| | | |active'].
  - destruct (attempt <? max_retries - 1)%nat; cbn [connects]; unfold finally_;
      destruct ((attempt =? max_retries - 1)%nat || negb active); cbn [connects];
      auto using Nat.le_0_l.
  - unfold finally_.
    destruct ((attempt =? max_retries - 1)%nat || negb active); cbn [connects];
      auto using Nat.le_0_l.
  - unfold finally_.
    destruct ((attempt =? max_retries - 1)%nat || negb active); cbn [connects];
      auto using Nat.le_0_l.
  - unfold finally_.
    destruct ((attempt =? max_retries - 1)%nat || negb active); cbn [connects];
      auto using Nat.le_0_l.
  - cbn [connects]. unfold finally_.
    destruct ((attempt =? max_retries - 1)%nat || negb active'); cbn [connects];
      apply Nat.le_0_l.
Qed.

Definition failed (o : attempt_outcome) : bool :=
  match o with
  | Connected _ => false
  | _ => true
  end.

(** The sleep that follows a failed attempt that is not the last one. *)
Definition sleep_after (o : attempt_outcome) (retry_delay : Z) : list stream_event :=
  match o with
  | InvalidHandshake => [Sleep retry_delay]
  | _ => []
  end.

Definition next_delay (o : attempt_outcome) (retry_delay : Z) : Z :=
  match o with
  | InvalidHandshake => retry_delay * 2
  | _ => retry_delay
  end.

(** What follows the third [Connect]. *)
Definition last_attempt (o : attempt_outcome) : list stream_event :=
  match o with
  | Connected _ => [TasksStarted; Cleanup]
  | _ => [Cleanup]
  end.

Lemma retry_loop_two_failures outcome :
  failed (outcome 0%nat) = true ->
  failed (outcome 1%nat) = true ->
  retry_loop outcome (seq 0 max_retries) 1 true
  = [Connect 0] ++ sleep_after (outcome 0%nat) 1
    ++ [Connect 1] ++ sleep_after (outcome 1%nat) (next_delay (outcome 0%nat) 1)
    ++ [Connect 2] ++ last_attempt (outcome 2%nat).
Proof.
  intros H0 H1. cbn [seq max_retries retry_loop].
  destruct (outcome 0%nat); try discriminate H0;
    destruct (outcome 1%nat); try discriminate H1;
    destruct (outcome 2%nat); reflexivity.
Qed.

(** A start message that is accepted. *)
Definition start_arrival : Z * ws_item :=
  (10, WsText (TwJson (EvStart (Some {| s_streamSid := Some "MZ1";
                                        s_callSid := Some "CA1" |})))).

(** C4, against the claim as it is stated: the agent does not acknowledge
    the settings within 5 s on the first two attempts and does on the
    third. Three attempts are made, and no time at all is slept between
    them. *)
Lemma ack_timeouts_retried_without_delay :
  h_events (handle_media_stream ∅ (Some start_arrival)
              (fun attempt => match attempt with
                              | 2%nat => Connected true
                              | _ => AckTimeout
                              end))
  = [Connect 0; Connect 1; Connect 2; TasksStarted; Cleanup]
  /\ slept (h_events (handle_media_stream ∅ (Some start_arrival)
                        (fun attempt => match attempt with
                                        | 2%nat => Connected true
                                        | _ => AckTimeout
                                        end))) = 0.
Proof. split; reflexivity. Qed.

(** C4, as the code has it. Once the call is set up, at most three
    connection attempts are made. When the first two fail, a third is made;
    each failure that is a WebSocket handshake failure ([InvalidHandshake])
    is followed by a sleep of [retry_delay] seconds, which starts at 1 and
    doubles after each such sleep, so that two handshake failures give
    sleeps of 1 s and 2 s; other failures (the 5 s acknowledgement timeout
    among them) are followed by the next attempt at once. After a failed
    third attempt the clean-up runs and no task is started; after a third
    attempt that succeeds the three tasks are started, and the clean-up
    runs when they are over. *)
Theorem handshake_retry_backoff connections first outcome st :
  h_state (handle_media_stream connections first outcome) = Some st ->
  (connects (h_events (handle_media_stream connections first outcome)) <= 3)%nat
  /\ (failed (outcome 0%nat) = true ->
      failed (outcome 1%nat) = true ->
      h_events (handle_media_stream connections first outcome)
      = [Connect 0] ++ sleep_after (outcome 0%nat) 1
        ++ [Connect 1] ++ sleep_after (outcome 1%nat) (next_delay (outcome 0%nat) 1)
        ++ [Connect 2] ++ last_attempt (outcome 2%nat))
  /\ (outcome 0%nat = InvalidHandshake ->
      outcome 1%nat = InvalidHandshake ->
      h_events (handle_media_stream connections first outcome)
      = [Connect 0; Sleep 1; Connect 1; Sleep 2; Connect 2]
        ++ last_attempt (outcome 2%nat)).
Proof.
  intros Hstate. rewrite (handle_media_stream_events _ _ _ _ Hstate).
  split; [apply (connects_retry_loop outcome (seq 0 max_retries))|].
  split; [apply retry_loop_two_failures|].
  intros H0 H1. rewrite retry_loop_two_failures by (now rewrite ?H0, ?H1).
  now rewrite H0, H1.
Qed.

Definition two_handshake_failures (attempt : nat) : attempt_outcome :=
  match attempt with
  | 2%nat => Connected true
  | _ => InvalidHandshake
  end.

Lemma handshake_retry_backoff_witness :
  (connects (h_events (handle_media_stream ∅ (Some start_arrival)
                         two_handshake_failures)) <= 3)%nat
  /\ h_events (handle_media_stream ∅ (Some start_arrival) two_handshake_failures)
     = [Connect 0; Sleep 1; Connect 1; Sleep 2; Connect 2; TasksStarted; Cleanup].
Proof.
  destruct (handshake_retry_backoff ∅ (Some start_arrival) two_handshake_failures
              _ eq_refl) as (Hconnects & _ & Hbackoff).
  exact (conj Hconnects (Hbackoff eq_refl eq_refl)).
Defined.

(** The first receive times out: nothing arrives at all, or what arrives
    comes too late. *)
Definition start_timed_out (first : option (Z * ws_item)) : bool :=
  match first with
  | None => true
  | Some (wait, _) => RECEIVE_TIMEOUT_MS <=? wait
  end.

(** No start message within the timeout: the first receive times out, or
    what it gives in time is no start message (another event, a frame that
    cannot be read, a socket that is closed or fails). *)
Definition no_start_in_time (first : option (Z * ws_item)) : bool :=
  match first with
  | None => true
  | Some (wait, item) =>
      (RECEIVE_TIMEOUT_MS <=? wait)
      || match item with
         | WsText (TwJson (EvStart _)) => false
         | _ => true
         end
  end.

(** The socket is closed or fails before the timeout: the first receive
    raises an exception that [initialize_connection_state] does not catch. *)
Definition first_receive_raises (first : option (Z * ws_item)) : bool :=
  match first with
  | Some (wait, (WsDisconnect | WsError)) => wait <? RECEIVE_TIMEOUT_MS
  | _ => false
  end.

(** The first frame arrives in time and is an event other than a start. *)
Definition other_event_first (first : option (Z * ws_item)) : option twilio_data :=
  match first with
  | Some (wait, WsText (TwJson data)) =>
      if wait <? RECEIVE_TIMEOUT_MS then
        match data with
        | EvStart _ | EvNoEvent => None
        | _ => Some data
        end
      else None
  | _ => None
  end.

(** C5, against the claim as it is stated: no start message arrives, the
    agent accepts the connection, and the session ends with
    [connection_active] false. The agent connection was made and the three
    tasks were started. *)
Lemma start_timeout_still_connects :
  h_events (handle_media_stream ∅ None (fun _ => Connected false))
  = [Connect 0; TasksStarted; Cleanup]
  /\ (connection_active <$> h_state (handle_media_stream ∅ None (fun _ => Connected false)))
     = Some true.
Proof. split; reflexivity. Qed.

Lemma initialize_connection_state_no_start connections first :
  no_start_in_time first = true ->
  initialize_connection_state connections first initial_state
  = if first_receive_raises first then None
    else Some match other_event_first first with
              | Some data => set_start_data (Some data) initial_state
              | None => start_failed initial_state
              end.
Proof.
  unfold initialize_connection_state, no_start_in_time, first_receive_raises,
    other_event_first.
  destruct first as [[wait item]|]; [|reflexivity].
  rewrite Z.leb_antisym.
  destruct (wait <? RECEIVE_TIMEOUT_MS); cbn [negb orb].
  - destruct item as [[|data]| |]; try reflexivity.
    destruct data; try reflexivity. discriminate.
  - intros _. now destruct item as [[|data]| |].
Qed.

(** C5, as the code has it. No start message arrives within 5 s of
    accepting the socket. If the socket is closed or fails during that
    wait, the exception leaves the handler and nothing is connected. In
    every other case the session is not ended: [connection_active] stays
    true, [call_sid] and [stream_sid] stay unset, the telephony loop will
    start without a stream id, and the connection to the agent is attempted
    as for any call; when the agent accepts it the three tasks are started.
    When nothing arrived in time, or the first frame was no JSON or had no
    ["event"], the caller is recorded as "Unknown Caller" and no start data
    are kept; when the first frame was another event, that frame is kept as
    the start data and the caller stays "Unknown". *)
Theorem start_timeout_not_fatal connections first outcome :
  no_start_in_time first = true ->
  (first_receive_raises first = true ->
   h_state (handle_media_stream connections first outcome) = None
   /\ h_events (handle_media_stream connections first outcome) = [])
  /\ (first_receive_raises first = false ->
      exists st,
        h_state (handle_media_stream connections first outcome) = Some st
        /\ connection_active st = true
        /\ call_sid st = None
        /\ stream_sid st = None
        /\ (caller_phone st, start_data st)
           = match other_event_first first with
             | Some data => ("Unknown", Some data)
             | None => ("Unknown Caller", None)
             end
        /\ (forall arrivals,
              receive_from_twilio connections arrivals st
              = twilio_loop connections arrivals st [])
        /\ (exists events,
              h_events (handle_media_stream connections first outcome)
              = Connect 0 :: events)
        /\ (forall active, outcome 0%nat = Connected active ->
              h_events (handle_media_stream connections first outcome)
              = Connect 0 :: TasksStarted :: (if active then [] else [Cleanup])))
  /\ (start_timed_out first = true ->
      first_receive_raises first = false /\ other_event_first first = None).
Proof.
  intros Hstart. unfold handle_media_stream.
  rewrite (initialize_connection_state_no_start _ _ Hstart).
  split; [|split].
  - intros Hraises. now rewrite Hraises.
  - intros Hraises. rewrite Hraises. eexists. split; [reflexivity|].
    cbn [h_events seq max_retries retry_loop].
    assert (Hfields :
      connection_active
        match other_event_first first with
        | Some data => set_start_data (Some data) initial_state
        | None => start_failed initial_state
        end = true
      /\ forall arrivals,
           receive_from_twilio connections arrivals
             match other_event_first first with
             | Some data => set_start_data (Some data) initial_state
             | None => start_failed initial_state
             end
           = twilio_loop connections arrivals
               match other_event_first first with
               | Some data => set_start_data (Some data) initial_state
               | None => start_failed initial_state
               end []).
    { destruct (other_event_first first) as [data|] eqn:Hother; [|now split].
      split; [reflexivity|]. intros arrivals.
      unfold other_event_first in Hother.
      destruct first as [[wait [[|data']| |]]|]; try discriminate Hother.
      destruct (wait <? RECEIVE_TIMEOUT_MS); [|discriminate Hother].
      destruct data'; try discriminate Hother;
        injection Hother as <-; reflexivity. }
    destruct Hfields as [Hactive Hloop]. rewrite Hactive.
    repeat split.
    + now destruct (other_event_first first).
    + now destruct (other_event_first first).
    + now destruct (other_event_first first).
    + exact Hloop.
    + eexists. reflexivity.
    + intros active Hconnected. rewrite Hconnected. now destruct active.
  - unfold start_timed_out, first_receive_raises, other_event_first.
    destruct first as [[wait item]|]; [|now split].
    rewrite Z.leb_antisym. intros Hlate. apply negb_true_iff in Hlate. rewrite Hlate.
    now destruct item as [[|data]| |].
Qed.

(** The first frame is Twilio's "connected" message, and no start message
    follows in time; and a stop event that comes after 5 s. *)
Lemma start_timeout_not_fatal_witness :
  (exists st,
     h_state (handle_media_stream ∅ (Some (10, WsText (TwJson (EvOther "connected"))))
                (fun _ => Connected true)) = Some st
     /\ (caller_phone st, start_data st) = ("Unknown", Some (EvOther "connected"))
     /\ h_events (handle_media_stream ∅ (Some (10, WsText (TwJson (EvOther "connected"))))
                    (fun _ => Connected true))
        = [Connect 0; TasksStarted])
  /\ (exists st,
        h_state (handle_media_stream ∅ (Some (5000, WsText (TwJson EvStop)))
                   (fun _ => Connected true)) = Some st
        /\ (caller_phone st, start_data st) = ("Unknown Caller", None)).
Proof.
  destruct (start_timeout_not_fatal ∅ (Some (10, WsText (TwJson (EvOther "connected"))))
              (fun _ => Connected true) eq_refl) as (_ & Hconnected & _).
  destruct (Hconnected eq_refl)
    as (st & Hstate & _ & _ & _ & Hfields & _ & _ & Hevents).
  destruct (start_timeout_not_fatal ∅ (Some (5000, WsText (TwJson EvStop)))
              (fun _ => Connected true) eq_refl) as (_ & Hlate & _).
  destruct (Hlate eq_refl) as (st' & Hstate' & _ & _ & _ & Hfields' & _).
  split.
  - exists st. exact (conj Hstate (conj Hfields (Hevents true eq_refl))).
  - exists st'. exact (conj Hstate' Hfields').
Defined.


(** * Further properties of the relay *)

(** ** The session registry *)

(** A call that is registered is found again with its data, whatever was
    stored under its id before (the earlier entry and its messages are
    replaced); the other calls are as they were. *)
Lemma registry_add_get (id id' : string) (data : connection_data)
    (connections : gmap string connection_data) :
  id <> id' ->
  ConnectionStore.get_connection id (ConnectionStore.add_connection id data connections)
  = Some data
  /\ ConnectionStore.get_messages id (ConnectionStore.add_connection id data connections)
     = messages data
  /\ ConnectionStore.get_connection id'
       (ConnectionStore.add_connection id data connections)
     = ConnectionStore.get_connection id' connections.
Proof.
  intros Hne. unfold ConnectionStore.get_messages, ConnectionStore.get_connection,
    ConnectionStore.add_connection.
  rewrite lookup_insert_eq, lookup_insert_ne by assumption. auto.
Qed.

Definition bakery_call : connection_data :=
  {| phone := Some "+15550100"; messages := [] |}.

Lemma CA1_CA2 : "CA1" <> "CA2".
Proof. discriminate. Qed.

(** The messages of a list are added one after the other. *)
Definition add_messages (id : string) (ms : list message)
    (connections : gmap string connection_data) : gmap string connection_data :=
  foldl (fun connections m => ConnectionStore.add_message id (role m) (content m) connections)
    connections ms.

Lemma add_message_known id r c data connections :
  connections !! id = Some data ->
  ConnectionStore.add_message id r c connections
  = <[id := {| phone := phone data;
               messages := messages data ++ [{| role := r; content := c |}] |}]> connections.
Proof.
  intros Hid. unfold ConnectionStore.add_message, ConnectionStore.get_connection.
  now rewrite Hid.
Qed.

Lemma add_message_unknown id r c connections :
  connections !! id = None ->
  ConnectionStore.add_message id r c connections = connections.
Proof.
  intros Hid. unfold ConnectionStore.add_message, ConnectionStore.get_connection.
  now rewrite Hid.
Qed.

Definition greeting : list message :=
  [ {| role := "assistant"; content := "Hello!" |};
    {| role := "user"; content := "Hi, this is Ann." |} ].

Lemma add_messages_unknown id ms connections :
  connections !! id = None ->
  add_messages id ms connections = connections.
Proof.
  intros Hid. induction ms as [|m ms IH]; [reflexivity|].
  cbn [add_messages foldl]. now rewrite add_message_unknown.
Qed.

(** X2. Adding messages to a call that is not registered leaves the whole
    registry as it was: nothing is created and nothing fails. *)
Theorem registry_unknown_call_ignored (id : string) (ms : list message)
    (connections : gmap string connection_data) :
  ConnectionStore.get_connection id connections = None ->
  add_messages id ms connections = connections
  /\ ConnectionStore.get_messages id (add_messages id ms connections) = [].
Proof.
  unfold ConnectionStore.get_connection. intros Hid.
  rewrite add_messages_unknown by assumption. split; [reflexivity|].
  unfold ConnectionStore.get_messages, ConnectionStore.get_connection. now rewrite Hid.
Qed.

Lemma registry_unknown_call_ignored_witness :
  add_messages "CA9" greeting (ConnectionStore.add_connection "CA1" bakery_call ∅)
  = ConnectionStore.add_connection "CA1" bakery_call ∅.
Proof.
  apply (registry_unknown_call_ignored "CA9" greeting
           (ConnectionStore.add_connection "CA1" bakery_call ∅)).
  reflexivity.
Defined.

(** X3. After a call is removed it is not found, it has no messages, and
    messages added for it later are dropped; the other calls are untouched,
    and removing a call that is not registered changes nothing. *)
Theorem registry_remove (id id' : string) (ms : list message)
    (connections : gmap string connection_data) :
  id <> id' ->
  ConnectionStore.get_connection id (ConnectionStore.remove_connection id connections)
  = None
  /\ ConnectionStore.get_messages id
       (add_messages id ms (ConnectionStore.remove_connection id connections)) = []
  /\ ConnectionStore.get_connection id' (ConnectionStore.remove_connection id connections)
     = ConnectionStore.get_connection id' connections
  /\ (ConnectionStore.get_connection id connections = None ->
      ConnectionStore.remove_connection id connections = connections).
Proof.
  intros Hne.
  assert (Hgone : ConnectionStore.get_connection id
                    (ConnectionStore.remove_connection id connections) = None)
    by apply lookup_delete_eq.
  split; [exact Hgone|]. split; [|split].
  - unfold ConnectionStore.get_connection in Hgone.
    rewrite add_messages_unknown by exact Hgone.
    unfold ConnectionStore.get_messages, ConnectionStore.get_connection.
    now rewrite Hgone.
  - unfold ConnectionStore.get_connection, ConnectionStore.remove_connection.
    now rewrite lookup_delete_ne.
  - unfold ConnectionStore.get_connection, ConnectionStore.remove_connection.
    apply delete_id.
Qed.

Lemma registry_remove_witness :
  ConnectionStore.get_messages "CA1"
    (add_messages "CA1" greeting
       (ConnectionStore.remove_connection "CA1"
          (ConnectionStore.add_connection "CA1" bakery_call ∅))) = []
  /\ ConnectionStore.remove_connection "CA1" ∅ = ∅.
Proof.
  destruct (registry_remove "CA1" "CA2" greeting
              (ConnectionStore.add_connection "CA1" bakery_call ∅)
              CA1_CA2) as (_ & Hmessages & _ & _).
  destruct (registry_remove "CA1" "CA2" greeting ∅ CA1_CA2)
    as (_ & _ & _ & Habsent).
  exact (conj Hmessages (Habsent eq_refl)).
Defined.

(** ** The session registry, with its entries held by reference *)

(** [ConnectionStore] above gives each entry by its contents. The code
    keeps under each id the dict object that the caller handed over
    ([self.connections[websocket_id] = data]) and appends in place to the
    list object under its ["messages"] key: two ids registered with one
    dict, or two dicts made with one list, share their log. Here the dict
    and list objects live in a heap and are named by their addresses. As in
    [connection_data], a dict has its ["messages"] key. *)
Module SharedStore.

Record dict := {
  phone_of : option string;          (* data["phone"], when there is one *)
  messages_of : positive;            (* data["messages"]: a list object *)
}.

Record store := {
  by_id : gmap string positive;            (* self.connections: id -> dict object *)
  dicts : gmap positive dict;              (* the dict objects *)
  lists : gmap positive (list message);    (* the list objects *)
}.

Definition add_connection (websocket_id : string) (data : positive) (s : store) : store :=
  {| by_id := <[websocket_id := data]> (by_id s); dicts := dicts s; lists := lists s |}.

Definition get_connection (websocket_id : string) (s : store) : option positive :=
  by_id s !! websocket_id.

(** [connection["messages"].append(...)]: the list object is changed, for
    every dict that holds it. *)
Definition add_message (websocket_id : string) (r c : string) (s : store) : store :=
  match get_connection websocket_id s with
  | Some connection =>
      match dicts s !! connection with
      | Some data =>
          {| by_id := by_id s; dicts := dicts s;
             lists := alter (fun log => Py.append log {| role := r; content := c |})
                        (messages_of data) (lists s) |}
      | None => s
      end
  | None => s
  end.

Definition get_messages (websocket_id : string) (s : store) : list message :=
  match get_connection websocket_id s with
  | Some connection =>
      match dicts s !! connection with
      | Some data => default [] (lists s !! messages_of data)
      | None => []
      end
  | None => []
  end.

Definition remove_connection (websocket_id : string) (s : store) : store :=
  {| by_id := delete websocket_id (by_id s); dicts := dicts s; lists := lists s |}.

End SharedStore.

(** The list object that holds the log of a call. *)
Definition log_of (id : string) (s : SharedStore.store) : option positive :=
  match SharedStore.get_connection id s with
  | Some connection => SharedStore.messages_of <$> SharedStore.dicts s !! connection
  | None => None
  end.

(** The messages of a list are added one after the other. *)
Definition add_shared_messages (id : string) (ms : list message)
    (s : SharedStore.store) : SharedStore.store :=
  foldl (fun s m => SharedStore.add_message id (role m) (content m) s) s ms.

(** What the registry holds, id by id: the view that [ConnectionStore]
    works on. *)
Definition contents (s : SharedStore.store) : gmap string connection_data :=
  omap (fun connection =>
          match SharedStore.dicts s !! connection with
          | Some data =>
              (fun log => {| phone := SharedStore.phone_of data; messages := log |})
                <$> SharedStore.lists s !! SharedStore.messages_of data
          | None => None
          end)
       (SharedStore.by_id s).

Lemma get_messages_log_of id s :
  SharedStore.get_messages id s
  = match log_of id s with
    | Some l => default [] (SharedStore.lists s !! l)
    | None => []
    end.
Proof.
  unfold SharedStore.get_messages, log_of.
  destruct (SharedStore.get_connection id s) as [connection|]; [|reflexivity].
  now destruct (SharedStore.dicts s !! connection).
Qed.

Lemma add_shared_message_log id r c s l :
  log_of id s = Some l ->
  SharedStore.add_message id r c s
  = {| SharedStore.by_id := SharedStore.by_id s;
       SharedStore.dicts := SharedStore.dicts s;
       SharedStore.lists :=
         alter (fun log => log ++ [{| role := r; content := c |}]) l
           (SharedStore.lists s) |}.
Proof.
  unfold log_of, SharedStore.add_message.
  destruct (SharedStore.get_connection id s) as [connection|]; [|discriminate].
  destruct (SharedStore.dicts s !! connection) as [data|]; [|discriminate].
  now intros [= <-].
Qed.

Lemma add_shared_messages_log id ms s l :
  log_of id s = Some l ->
  SharedStore.by_id (add_shared_messages id ms s) = SharedStore.by_id s
  /\ SharedStore.dicts (add_shared_messages id ms s) = SharedStore.dicts s
  /\ forall l',
       SharedStore.lists (add_shared_messages id ms s) !! l'
       = if decide (l' = l) then (fun log => log ++ ms) <$> SharedStore.lists s !! l'
         else SharedStore.lists s !! l'.
Proof.
  revert s. induction ms as [|[r c] ms IH]; intros s Hlog.
  - cbn. repeat split. intros l'.
    destruct (decide (l' = l)); [|reflexivity].
    destruct (SharedStore.lists s !! l'); cbn; [|reflexivity].
    now rewrite app_nil_r.
  - cbn [add_shared_messages foldl role content].
    rewrite (add_shared_message_log _ _ _ _ _ Hlog).
    match goal with |- context [foldl _ ?s1 ms] =>
      fold (add_shared_messages id ms s1);
      destruct (IH s1 Hlog) as (Hids & Hdicts & Hlists)
    end.
    rewrite Hids, Hdicts. repeat split. intros l'. rewrite Hlists.
    cbn [SharedStore.lists].
    destruct (decide (l' = l)) as [->|Hne].
    + rewrite lookup_alter_eq.
      destruct (SharedStore.lists s !! l); cbn; [|reflexivity].
      now rewrite <- app_assoc.
    + now rewrite lookup_alter_ne.
Qed.

(** X1. Messages added to a registered call are appended to its log in the
    order of the calls, after the messages it had. No id is added or
    removed and no dict is changed, so every phone stays as it was. The
    log of another id is changed exactly when that id holds the same list
    object, through the same dict or through another one; it then shows
    the same new messages. The log of every other id is untouched. *)
Theorem registry_messages_in_order (id : string) (ms : list message)
    (s : SharedStore.store) (l : positive) (log : list message) :
  log_of id s = Some l ->
  SharedStore.lists s !! l = Some log ->
  SharedStore.get_messages id (add_shared_messages id ms s) = log ++ ms
  /\ SharedStore.by_id (add_shared_messages id ms s) = SharedStore.by_id s
  /\ SharedStore.dicts (add_shared_messages id ms s) = SharedStore.dicts s
  /\ (forall id',
        SharedStore.get_messages id' (add_shared_messages id ms s)
        = if decide (log_of id' s = Some l)
          then SharedStore.get_messages id' s ++ ms
          else SharedStore.get_messages id' s).
Proof.
  intros Hlog Hl.
  destruct (add_shared_messages_log id ms s l Hlog) as (Hids & Hdicts & Hlists).
  assert (Hlog_of : forall id', log_of id' (add_shared_messages id ms s) = log_of id' s).
  { intros id'. unfold log_of, SharedStore.get_connection. now rewrite Hids, Hdicts. }
  assert (Hothers : forall id',
    SharedStore.get_messages id' (add_shared_messages id ms s)
    = if decide (log_of id' s = Some l)
      then SharedStore.get_messages id' s ++ ms
      else SharedStore.get_messages id' s).
  { intros id'. rewrite !get_messages_log_of, Hlog_of.
    destruct (log_of id' s) as [l'|]; [|now destruct (decide (None = Some l))].
    rewrite Hlists.
    destruct (decide (Some l' = Some l)) as [[= ->]|Hne].
    - rewrite decide_True by reflexivity. rewrite Hl. reflexivity.
    - rewrite decide_False by congruence. reflexivity. }
  repeat split; try assumption.
  rewrite Hothers, decide_True by assumption.
  now rewrite get_messages_log_of, Hlog, Hl.
Qed.

(** Two ids registered with one dict, a third with a dict of its own. *)
Definition shared_registry : SharedStore.store :=
  SharedStore.add_connection "CA1" 1%positive
    (SharedStore.add_connection "CA2" 1%positive
       (SharedStore.add_connection "CA3" 2%positive
          {| SharedStore.by_id := ∅;
             SharedStore.dicts :=
               {[ 1%positive := {| SharedStore.phone_of := Some "+15550100";
                                   SharedStore.messages_of := 1%positive |};
                  2%positive := {| SharedStore.phone_of := Some "+15550101";
                                   SharedStore.messages_of := 2%positive |} ]};
             SharedStore.lists := {[ 1%positive := []; 2%positive := [] ]} |})).

Lemma registry_messages_in_order_witness :
  SharedStore.get_messages "CA1" (add_shared_messages "CA1" greeting shared_registry)
  = greeting
  /\ SharedStore.get_messages "CA2" (add_shared_messages "CA1" greeting shared_registry)
     = greeting
  /\ SharedStore.get_messages "CA3" (add_shared_messages "CA1" greeting shared_registry)
     = [].
Proof.
  destruct (registry_messages_in_order "CA1" greeting shared_registry 1%positive []
              eq_refl eq_refl) as (Hown & _ & _ & Hothers).
  split; [exact Hown|]. split.
  - exact (Hothers "CA2").
  - exact (Hothers "CA3").
Defined.

(** While no other id holds the list object of a call, adding a message
    for it changes the contents of the registry as [ConnectionStore] has
    it. This is the case of the relay, which registers each call with a
    dict and a list made for it. *)
Lemma contents_add_message id r c s :
  (forall id' l, id' <> id -> log_of id s = Some l -> log_of id' s <> Some l) ->
  contents (SharedStore.add_message id r c s)
  = ConnectionStore.add_message id r c (contents s).
Proof.
  intros Hunshared.
  unfold ConnectionStore.add_message, ConnectionStore.get_connection.
  destruct (log_of id s) as [l|] eqn:Hlog.
  - rewrite (add_shared_message_log _ _ _ _ _ Hlog).
    unfold log_of, SharedStore.get_connection in Hlog.
    destruct (SharedStore.by_id s !! id) as [connection|] eqn:Hid; [|discriminate].
    destruct (SharedStore.dicts s !! connection) as [data|] eqn:Hdata; [|discriminate].
    injection Hlog as <-.
    assert (Hold : contents s !! id
                   = (fun log => {| phone := SharedStore.phone_of data; messages := log |})
                       <$> SharedStore.lists s !! SharedStore.messages_of data).
    { unfold contents. rewrite lookup_omap, Hid. cbn. now rewrite Hdata. }
    rewrite Hold.
    apply map_eq. intros id'.
    unfold contents at 1. rewrite lookup_omap. cbn [SharedStore.by_id SharedStore.dicts
      SharedStore.lists].
    destruct (decide (id' = id)) as [->|Hne].
    + rewrite Hid. cbn. rewrite Hdata, lookup_alter_eq.
      destruct (SharedStore.lists s !! SharedStore.messages_of data) as [log|];
        cbn; [|now rewrite Hold].
      now rewrite lookup_insert_eq.
    + transitivity (contents s !! id').
      * unfold contents. rewrite lookup_omap.
        destruct (SharedStore.by_id s !! id') as [connection'|] eqn:Hid'; [|reflexivity].
        cbn. destruct (SharedStore.dicts s !! connection') as [data'|] eqn:Hdata';
          [|reflexivity].
        rewrite lookup_alter_ne; [reflexivity|].
        intros Hsame.
        apply (Hunshared id' (SharedStore.messages_of data) Hne).
        -- reflexivity.
        -- unfold log_of, SharedStore.get_connection. rewrite Hid', Hdata'. cbn.
           now rewrite Hsame.
      * destruct (SharedStore.lists s !! SharedStore.messages_of data); cbn;
          [|reflexivity].
        now rewrite lookup_insert_ne.
  - assert (Hsame : SharedStore.add_message id r c s = s).
    { unfold log_of in Hlog. unfold SharedStore.add_message.
      destruct (SharedStore.get_connection id s) as [connection|]; [|reflexivity].
      now destruct (SharedStore.dicts s !! connection). }
    rewrite Hsame.
    assert (Hnone : contents s !! id = None).
    { unfold contents. rewrite lookup_omap.
      unfold log_of, SharedStore.get_connection in Hlog.
      destruct (SharedStore.by_id s !! id) as [connection|]; [|reflexivity].
      cbn. now destruct (SharedStore.dicts s !! connection). }
    now rewrite Hnone.
Qed.

Lemma contents_get_messages id s :
  SharedStore.get_messages id s = ConnectionStore.get_messages id (contents s).
Proof.
  unfold SharedStore.get_messages, ConnectionStore.get_messages,
    ConnectionStore.get_connection, SharedStore.get_connection, contents.
  rewrite lookup_omap.
  destruct (SharedStore.by_id s !! id) as [connection|]; [|reflexivity].
  cbn. destruct (SharedStore.dicts s !! connection) as [data|]; [|reflexivity].
  now destruct (SharedStore.lists s !! SharedStore.messages_of data).
Qed.

Lemma contents_remove_connection id s :
  contents (SharedStore.remove_connection id s)
  = ConnectionStore.remove_connection id (contents s).
Proof.
  unfold contents, SharedStore.remove_connection, ConnectionStore.remove_connection.
  cbn [SharedStore.by_id SharedStore.dicts SharedStore.lists].
  apply map_eq. intros id'. rewrite lookup_omap.
  destruct (decide (id' = id)) as [->|Hne].
  - now rewrite !lookup_delete_eq.
  - rewrite !lookup_delete_ne by congruence. now rewrite lookup_omap.
Qed.

(** ** Invariants of the telephony loop *)

(** A property of the state and the buffer that every turn of the loop
    keeps, and a property of what it puts or sends, hold along the whole
    loop. *)
Section TwilioLoopInvariant.

Variable connections : gmap string connection_data.
Variable I : connection_state -> bytes -> Prop.
Variable P : effect -> Prop.

Hypothesis next_keeps : forall message st inbuffer st' inbuffer' o,
  I st inbuffer ->
  on_twilio_text connections message st inbuffer = Next st' inbuffer' o ->
  I st' inbuffer' /\ Forall P o.

Hypothesis exit_keeps : forall message st inbuffer st' o,
  I st inbuffer ->
  on_twilio_text connections message st inbuffer = Exit st' o ->
  I st' inbuffer /\ Forall P o.

Hypothesis closed_keeps : forall st inbuffer,
  I st inbuffer -> I (set_connection_active false st) inbuffer.

Hypothesis probe_ok : P ProbeReceive.

Lemma twilio_loop_invariant arrivals st inbuffer :
  I st inbuffer ->
  I (final (twilio_loop connections arrivals st inbuffer))
    (leftover (twilio_loop connections arrivals st inbuffer))
  /\ Forall P (out (twilio_loop connections arrivals st inbuffer)).
Proof.
  revert st inbuffer.
  induction arrivals as [|[wait item] arrivals IH]; intros st inbuffer Hinv.
  - cbn [twilio_loop]. destruct (connection_active st); cbn; auto.
  - destruct (connection_active st) eqn:Hactive.
    2:{ cbn [twilio_loop]. rewrite Hactive. cbn. auto. }
    rewrite twilio_loop_cons by assumption.
    destruct (wait <? RECEIVE_TIMEOUT_MS).
    + destruct item as [message| |].
      * destruct (on_twilio_text connections message st inbuffer)
          as [st' inbuffer' o|st' o] eqn:Hstep.
        -- destruct (next_keeps _ _ _ _ _ _ Hinv Hstep) as [Hinv' Ho].
           destruct (IH _ _ Hinv') as [Hfinal Hout].
           cbn [emit final leftover out]. split; [assumption|].
           apply Forall_app. auto.
        -- cbn [final leftover out]. eapply exit_keeps; eassumption.
      * cbn. auto.
      * cbn. auto.
    + destruct item as [message| |].
      * destruct (IH _ _ Hinv) as [Hfinal Hout].
        cbn [emit final leftover out]. split; [assumption|].
        apply Forall_app. auto.
      * cbn. auto.
      * cbn. auto.
Qed.

End TwilioLoopInvariant.

(** What the telephony loop may put or send: frames of the frame size into
    [audio_queue], and the bare receive after a timeout. *)
Definition frame_or_probe (e : effect) : Prop :=
  match e with
  | AudioQueuePut frame => length frame = BUFFER_SIZE
  | ProbeReceive => True
  | TwilioSend _ | DeepgramSend _ => False
  end.

Lemma on_media_frames media st inbuffer :
  (length inbuffer < BUFFER_SIZE)%nat ->
  match on_media media st inbuffer with
  | Next _ inbuffer' o => (length inbuffer' < BUFFER_SIZE)%nat /\ Forall frame_or_probe o
  | Exit _ o => Forall frame_or_probe o
  end.
Proof.
  intros Hlen. unfold on_media.
  destruct media as [m|]; [|constructor].
  assert (Hpayload :
    forall st,
      match
        match m_payload m with
        | Some chunk =>
            if decide (m_track m = Some "inbound")
            then let '(frames, inbuffer0) := drain_frames (inbuffer ++ chunk) in
                 Next st inbuffer0 (AudioQueuePut <$> frames)
            else Next st inbuffer []
        | None => loop_failed st
        end
      with
      | Next _ inbuffer' o => (length inbuffer' < BUFFER_SIZE)%nat /\ Forall frame_or_probe o
      | Exit _ o => Forall frame_or_probe o
      end).
  { intros st0. destruct (m_payload m) as [chunk|]; [|constructor].
    destruct (decide (m_track m = Some "inbound")); [|split; [assumption|constructor]].
    destruct (drain_frames_spec (inbuffer ++ chunk)) as (_ & Hframes & Hrest).
    destruct (drain_frames (inbuffer ++ chunk)) as [frames rest].
    cbn [fst snd] in Hframes, Hrest. split; [assumption|].
    apply Forall_fmap. eapply Forall_impl; [exact Hframes|]. auto. }
  destruct (m_timestamp m); [apply Hpayload|apply Hpayload|constructor].
Qed.

Lemma on_twilio_text_frames connections message st inbuffer :
  (length inbuffer < BUFFER_SIZE)%nat ->
  match on_twilio_text connections message st inbuffer with
  | Next _ inbuffer' o => (length inbuffer' < BUFFER_SIZE)%nat /\ Forall frame_or_probe o
  | Exit _ o => Forall frame_or_probe o
  end.
Proof.
  intros Hlen. destruct message as [|data]; [constructor|].
  destruct data as [media|start| | |event|]; cbn [on_twilio_text].
  - now apply on_media_frames.
  - destruct (handle_start_event connections start st); [split; [assumption|]|];
      constructor.
  - destruct (Py.pop0 (mark_queue st)) as [[x q]|]; (split; [assumption|constructor]).
  - constructor.
  - split; [assumption|constructor].
  - constructor.
Qed.

Lemma twilio_loop_frames connections arrivals st inbuffer :
  (length inbuffer < BUFFER_SIZE)%nat ->
  (length (leftover (twilio_loop connections arrivals st inbuffer)) < BUFFER_SIZE)%nat
  /\ Forall frame_or_probe (out (twilio_loop connections arrivals st inbuffer)).
Proof.
  intros Hlen.
  apply (twilio_loop_invariant connections
           (fun _ inbuffer => (length inbuffer < BUFFER_SIZE)%nat) frame_or_probe).
  - intros message st0 inbuffer0 st' inbuffer' o Hshort Hstep.
    pose proof (on_twilio_text_frames connections message st0 inbuffer0 Hshort) as H.
    now rewrite Hstep in H.
  - intros message st0 inbuffer0 st' o Hshort Hstep.
    pose proof (on_twilio_text_frames connections message st0 inbuffer0 Hshort) as H.
    rewrite Hstep in H. auto.
  - auto.
  - exact I.
  - exact Hlen.
Qed.

(** X4. Whatever arrives on the telephony socket (well formed or not, in
    time or late), [receive_from_twilio] never sends anything to either
    socket: it only puts frames into [audio_queue], each of exactly 3200
    bytes, and fewer than 3200 bytes are left in its buffer when it ends. *)
Theorem telephony_loop_puts_whole_frames connections arrivals st :
  Forall (fun e => match e with
                   | AudioQueuePut frame => length frame = 3200%nat
                   | ProbeReceive => True
                   | TwilioSend _ | DeepgramSend _ => False
                   end) (out (receive_from_twilio connections arrivals st))
  /\ (length (leftover (receive_from_twilio connections arrivals st)) < 3200)%nat.
Proof.
  rewrite <- BUFFER_SIZE_eq. fold frame_or_probe.
  assert (Hempty : (length (@nil Byte.byte) < BUFFER_SIZE)%nat) by apply BUFFER_SIZE_pos.
  assert (Hraised : forall st0,
    Forall frame_or_probe
      (out {| final := st0; out := []; status := Raised; leftover := [] |})
    /\ (length (leftover {| final := st0; out := []; status := Raised; leftover := [] |})
        < BUFFER_SIZE)%nat).
  { intros st0. split; [constructor|exact Hempty]. }
  unfold receive_from_twilio.
  destruct (start_data st) as [[media|[s|]| | |event|]|];
    try (destruct (twilio_loop_frames connections arrivals st [] Hempty); now split);
    try apply Hraised.
  destruct (s_streamSid s) as [sid|]; [|apply Hraised].
  destruct (twilio_loop_frames connections arrivals
              (set_latest_media_timestamp 0 (set_stream_sid (Some sid) st)) [] Hempty).
  now split.
Qed.

Lemma on_twilio_text_exit_inactive connections message st inbuffer st' o :
  on_twilio_text connections message st inbuffer = Exit st' o ->
  connection_active st' = false.
Proof.
  destruct message as [|data]; [now intros [= <- _]|].
  destruct data as [media|start| | |event|]; cbn [on_twilio_text];
    try discriminate; try (now intros [= <- _]).
  - unfold on_media. destruct media as [m|]; [|now intros [= <- _]].
    destruct (m_timestamp m); try (now intros [= <- _]);
      (destruct (m_payload m) as [chunk|]; [|now intros [= <- _]];
       destruct (decide (m_track m = Some "inbound")); [|discriminate];
       destruct (drain_frames (inbuffer ++ chunk)); discriminate).
  - destruct (handle_start_event connections start st); [discriminate|].
    now intros [= <- _].
  - destruct (Py.pop0 (mark_queue st)) as [[x q]|]; discriminate.
Qed.

(** X5. However [receive_from_twilio]'s loop ends, it has cleared
    [connection_active]: by a stop event, a closed socket, a failed probe or
    any exception. It is left with [connection_active] true only where it
    waits for a frame that never comes, and no exception leaves it. *)
Theorem telephony_loop_exit_clears_active connections arrivals st inbuffer :
  status (twilio_loop connections arrivals st inbuffer) <> Raised
  /\ (status (twilio_loop connections arrivals st inbuffer) = Returned ->
      connection_active (final (twilio_loop connections arrivals st inbuffer)) = false)
  /\ (status (twilio_loop connections arrivals st inbuffer) = Blocked ->
      connection_active (final (twilio_loop connections arrivals st inbuffer)) = true).
Proof.
  revert st inbuffer.
  induction arrivals as [|[wait item] arrivals IH]; intros st inbuffer.
  - cbn [twilio_loop]. destruct (connection_active st) eqn:Hactive; cbn;
      repeat split; congruence.
  - destruct (connection_active st) eqn:Hactive.
    2:{ cbn [twilio_loop]. rewrite Hactive. cbn. repeat split; congruence. }
    rewrite twilio_loop_cons by assumption.
    destruct (wait <? RECEIVE_TIMEOUT_MS).
    + destruct item as [message| |]; [|cbn; repeat split; congruence..].
      destruct (on_twilio_text connections message st inbuffer)
        as [st' inbuffer' o|st' o] eqn:Hstep.
      * cbn [emit final status]. apply IH.
      * apply on_twilio_text_exit_inactive in Hstep.
        cbn. repeat split; congruence.
    + destruct item as [message| |]; [|cbn; repeat split; congruence..].
      cbn [emit final status]. apply IH.
Qed.

(** ** Start events *)

Lemma handle_start_event_some connections s sid st :
  s_streamSid s = Some sid ->
  exists st',
    handle_start_event connections (Some s) st = Some st'
    /\ stream_sid st' = Some sid
    /\ latest_media_timestamp st' = 0
    /\ last_assistant_item st' = None
    /\ response_start_timestamp_twilio st' = None
    /\ mark_queue st' = mark_queue st
    /\ connection_active st' = connection_active st
    /\ (Py.truthy (call_sid st) = true ->
        call_sid st' = call_sid st /\ caller_phone st' = caller_phone st)
    /\ (Py.truthy (call_sid st) = false ->
        call_sid st' = Py.or_ (s_callSid s) (Some sid)).
Proof.
  intros Hsid. unfold handle_start_event. rewrite Hsid.
  cbn [call_sid set_stream_sid stream_sid].
  destruct (Py.truthy (call_sid st)) eqn:Hcall; cbn [negb].
  - eexists. split; [reflexivity|]. cbn. repeat split; auto; discriminate.
  - destruct (lookup_call _ connections) as [cd|] eqn:Hlookup;
      [destruct (phone cd)|];
      (eexists; split; [reflexivity|]; cbn; repeat split; auto; discriminate).
Qed.

(** X6. A start event in mid-call replaces the stream id, resets the media
    timestamp and clears the utterance in flight, but the first call id
    wins: once [call_sid] is set, later start events change neither it nor
    the caller's phone; and the marks still queued for the old stream are
    kept. *)
Theorem start_event_keeps_call connections s sid st :
  s_streamSid s = Some sid ->
  Py.truthy (call_sid st) = true ->
  exists st',
    on_twilio_text connections (TwJson (EvStart (Some s))) st [] = Next st' [] []
    /\ stream_sid st' = Some sid
    /\ call_sid st' = call_sid st
    /\ caller_phone st' = caller_phone st
    /\ mark_queue st' = mark_queue st
    /\ latest_media_timestamp st' = 0
    /\ last_assistant_item st' = None
    /\ response_start_timestamp_twilio st' = None.
Proof.
  intros Hsid Hcall.
  destruct (handle_start_event_some connections s sid st Hsid)
    as (st' & Hstep & Hstream & Hlatest & Hitem & Hstart & Hmarks & _ & Hkept & _).
  destruct (Hkept Hcall) as [Hcall' Hphone].
  exists st'. cbn [on_twilio_text]. rewrite Hstep. auto 10.
Qed.

Definition restart : start_fields :=
  {| s_streamSid := Some "MZ2"; s_callSid := Some "CA2" |}.

Lemma start_event_keeps_call_witness :
  exists st',
    on_twilio_text ∅ (TwJson (EvStart (Some restart))) mid_utterance [] = Next st' [] []
    /\ stream_sid st' = Some "MZ2"
    /\ call_sid st' = Some "CA1"
    /\ caller_phone st' = "Unknown"
    /\ mark_queue st' = ["responsePart"; "responsePart"]
    /\ latest_media_timestamp st' = 0
    /\ last_assistant_item st' = None
    /\ response_start_timestamp_twilio st' = None.
Proof.
  apply (start_event_keeps_call ∅ restart "MZ2" mid_utterance); reflexivity.
Defined.

(** X7. Handling the same start event twice gives the state that handling it
    once gives. *)
Theorem start_event_idempotent connections start st st' :
  handle_start_event connections start st = Some st' ->
  handle_start_event connections start st' = Some st'.
Proof.
  unfold handle_start_event.
  destruct start as [s|]; [|discriminate].
  destruct (s_streamSid s) as [sid|]; [|discriminate].
  cbn [call_sid set_stream_sid stream_sid].
  destruct (Py.truthy (call_sid st)) eqn:Hcall; cbn [negb].
  - intros [= <-]. cbn. rewrite Hcall. reflexivity.
  - destruct (lookup_call (call_sid (set_call_sid (Py.or_ (s_callSid s) (Some sid))
                                       (set_stream_sid (Some sid) st))) connections)
      as [cd|] eqn:Hlookup; cbn [call_sid set_call_sid] in Hlookup.
    + destruct (phone cd) as [p|] eqn:Hphone; intros [= <-]; cbn;
        destruct (Py.truthy (Py.or_ (s_callSid s) (Some sid))); cbn;
        rewrite ?Hlookup, ?Hphone; reflexivity.
    + intros [= <-]. cbn.
      destruct (Py.truthy (Py.or_ (s_callSid s) (Some sid))); cbn;
        rewrite ?Hlookup; reflexivity.
Qed.

Lemma start_event_idempotent_witness :
  handle_start_event ∅ (Some restart)
    (set_response_start_timestamp_twilio None
       (set_last_assistant_item None
          (set_latest_media_timestamp 0
             (set_stream_sid (Some "MZ2") mid_utterance))))
  = Some (set_response_start_timestamp_twilio None
            (set_last_assistant_item None
               (set_latest_media_timestamp 0
                  (set_stream_sid (Some "MZ2") mid_utterance)))).
Proof.
  apply (start_event_idempotent ∅ (Some restart) mid_utterance). reflexivity.
Defined.

Lemma telephony_loop_exit_clears_active_witness :
  connection_active (final (twilio_loop ∅ [mark_arrival; stop_arrival; mark_arrival]
                              mid_utterance [])) = false
  /\ connection_active (final (twilio_loop ∅ [mark_arrival] mid_utterance [])) = true.
Proof.
  split.
  - apply (telephony_loop_exit_clears_active ∅ [mark_arrival; stop_arrival; mark_arrival]
             mid_utterance []). reflexivity.
  - apply (telephony_loop_exit_clears_active ∅ [mark_arrival] mid_utterance []).
    reflexivity.
Defined.

(** ** Invariants of the agent loop *)

(** A property of the state that every message keeps and a property of what
    is sent hold along the whole loop. *)
Section AgentLoopInvariant.

Variable I : connection_state -> Prop.
Variable P : effect -> Prop.

Hypothesis step_keeps : forall connections message st,
  I st ->
  match on_deepgram_message connections message st with
  | AgentNext _ st' o | AgentExit _ st' o => I st' /\ Forall P o
  end.

Hypothesis closed_keeps : forall st, I st -> I (set_connection_active false st).

Lemma agent_loop_invariant connections items st :
  I st ->
  I (a_final (receive_from_deepgram connections items st))
  /\ Forall P (a_out (receive_from_deepgram connections items st)).
Proof.
  revert connections st.
  induction items as [|[message|] items IH]; intros connections st Hinv.
  - cbn. auto.
  - cbn [receive_from_deepgram].
    destruct (connection_active st); cbn [negb]; [|cbn; auto].
    pose proof (step_keeps connections message st Hinv) as Hstep.
    destruct (on_deepgram_message connections message st) as [c' st' o|c' st' o].
    + destruct Hstep as [Hinv' Ho]. destruct (IH c' st' Hinv') as [Hfinal Hout].
      cbn [a_emit a_final a_out]. split; [assumption|]. apply Forall_app. auto.
    + cbn. exact Hstep.
  - cbn. auto.
Qed.

End AgentLoopInvariant.

(** The fields that belong to the telephony side. *)
Definition telephony_fields (st : connection_state) :=
  (stream_sid st, call_sid st, caller_phone st, latest_media_timestamp st, start_data st).

Lemma on_deepgram_message_telephony_fields connections message st :
  telephony_fields (agent_after (on_deepgram_message connections message st))
  = telephony_fields st.
Proof.
  destruct message as [[|data]|audio]; cbn [on_deepgram_message on_deepgram_text].
  - reflexivity.
  - destruct (d_type data) as [event|]; [|reflexivity].
    destruct (String.eqb (Py.lower event) "conversationtext").
    { unfold on_conversation_text.
      destruct (d_role data) as [r|]; [|reflexivity].
      destruct (d_content data) as [c|]; [|reflexivity].
      destruct (Py.truthy (Some r) && Py.truthy (Some c)); [|reflexivity].
      destruct (String.eqb r "assistant"); [|reflexivity].
      cbn. now destruct (response_start_timestamp_twilio st). }
    destruct (String.eqb (Py.lower event) "functioncall").
    { unfold on_function_call.
      destruct (decide (d_name data = Some "store_contact_info"));
        [now destruct (d_parameters data)|reflexivity]. }
    destruct (String.eqb event "UserStartedSpeaking"); [|reflexivity].
    unfold on_user_started_speaking. cbn.
    destruct (response_start_timestamp_twilio st); [|reflexivity].
    now destruct (Py.truthy (stream_sid st) && Py.truthy (last_assistant_item st)).
  - unfold on_deepgram_binary, send_mark. cbn [stream_sid set_speech_started].
    now destruct (Py.truthy (stream_sid st)).
Qed.

Lemma on_deepgram_message_silent connections message st :
  Py.truthy (stream_sid st) = false ->
  match on_deepgram_message connections message st with
  | AgentNext _ _ o | AgentExit _ _ o => o = []
  end.
Proof.
  intros Hsid.
  destruct message as [[|data]|audio]; cbn [on_deepgram_message on_deepgram_text].
  - reflexivity.
  - destruct (d_type data) as [event|]; [|reflexivity].
    destruct (String.eqb (Py.lower event) "conversationtext").
    { unfold on_conversation_text.
      destruct (d_role data) as [r|]; [|reflexivity].
      destruct (d_content data) as [c|]; [|reflexivity].
      destruct (Py.truthy (Some r) && Py.truthy (Some c)); [|reflexivity].
      destruct (String.eqb r "assistant"); [|reflexivity].
      cbn. now destruct (response_start_timestamp_twilio st). }
    destruct (String.eqb (Py.lower event) "functioncall").
    { unfold on_function_call.
      destruct (decide (d_name data = Some "store_contact_info"));
        [now destruct (d_parameters data)|reflexivity]. }
    destruct (String.eqb event "UserStartedSpeaking"); [|reflexivity].
    unfold on_user_started_speaking. cbn.
    destruct (response_start_timestamp_twilio st); [|reflexivity].
    now rewrite Hsid.
  - unfold on_deepgram_binary. now rewrite Hsid.
Qed.

(** X8. The agent loop never touches the fields of the telephony side:
    whatever the agent sends, [stream_sid], [call_sid], [caller_phone],
    [latest_media_timestamp] and [start_data] are at its end what they were
    at its start. *)
Theorem agent_loop_keeps_telephony_fields connections items st :
  stream_sid (a_final (receive_from_deepgram connections items st)) = stream_sid st
  /\ call_sid (a_final (receive_from_deepgram connections items st)) = call_sid st
  /\ caller_phone (a_final (receive_from_deepgram connections items st)) = caller_phone st
  /\ latest_media_timestamp (a_final (receive_from_deepgram connections items st))
     = latest_media_timestamp st
  /\ start_data (a_final (receive_from_deepgram connections items st)) = start_data st.
Proof.
  destruct (agent_loop_invariant
              (fun st' => telephony_fields st' = telephony_fields st) (fun _ => True))
    with (connections := connections) (items := items) (st := st) as [Hfields _].
  - intros c message st' Hinv.
    pose proof (on_deepgram_message_telephony_fields c message st') as Hstep.
    destruct (on_deepgram_message c message st') as [c' st'' o|c' st'' o];
      cbn [agent_after] in Hstep; (split; [congruence|]);
      apply Forall_forall; auto.
  - intros st' Hinv. exact Hinv.
  - reflexivity.
  - unfold telephony_fields in Hfields. injection Hfields. auto.
Qed.

(** X9. As long as no telephony start event has given a stream id, the
    agent loop sends nothing at all, to neither socket, whatever the agent
    sends and however long: audio is dropped and a barge-in is not
    signalled. *)
Theorem agent_loop_silent_without_stream connections items st :
  Py.truthy (stream_sid st) = false ->
  a_out (receive_from_deepgram connections items st) = [].
Proof.
  intros Hsid.
  destruct (agent_loop_invariant
              (fun st' => Py.truthy (stream_sid st') = false) (fun _ => False))
    with (connections := connections) (items := items) (st := st) as [_ Hout].
  - intros c message st' Hinv.
    pose proof (on_deepgram_message_telephony_fields c message st') as Hfields.
    pose proof (on_deepgram_message_silent c message st' Hinv) as Hsilent.
    apply (f_equal (fun fields => fields.1.1.1.1)) in Hfields.
    cbn [telephony_fields fst] in Hfields.
    destruct (on_deepgram_message c message st') as [c' st'' o|c' st'' o];
      cbn [agent_after] in Hfields; subst o;
      (split; [now rewrite Hfields|constructor]).
  - intros st' Hinv. exact Hinv.
  - exact Hsid.
  - destruct (a_out (receive_from_deepgram connections items st)) as [|e o];
      [reflexivity|]. now inversion Hout.
Qed.

Lemma agent_loop_silent_without_stream_witness :
  a_out (receive_from_deepgram ∅
           [AgMessage (DgStr (DgJson (assistant_text (Some "abc"))));
            AgMessage (DgBinary [Byte.x7f]);
            AgMessage (DgStr (DgJson user_started_speaking))]
           initial_state) = [].
Proof.
  apply (agent_loop_silent_without_stream ∅
           [AgMessage (DgStr (DgJson (assistant_text (Some "abc"))));
            AgMessage (DgBinary [Byte.x7f]);
            AgMessage (DgStr (DgJson user_started_speaking))]
           initial_state).
  reflexivity.
Defined.

(** ** Audio from the agent *)

(** What is sent to the telephony socket for one audio frame. *)
Definition forwarded (sid : option string) (audio : bytes) : list effect :=
  [TwilioSend (OutMedia sid audio); TwilioSend (OutMark sid "responsePart")].

Definition audio_item (audio : bytes) : agent_item := AgMessage (DgBinary audio).

Lemma on_deepgram_binary_streaming audio st :
  Py.truthy (stream_sid st) = true ->
  on_deepgram_binary audio st
  = (set_mark_queue (mark_queue st ++ ["responsePart"]) (set_speech_started false st),
     forwarded (stream_sid st) audio).
Proof.
  intros Hsid. unfold on_deepgram_binary, send_mark.
  cbn [stream_sid set_speech_started mark_queue]. now rewrite Hsid.
Qed.

(** X10. While a stream id is set, every audio frame of the agent is
    forwarded as one media message followed by exactly one mark message,
    frames in the order they came, and [mark_queue] grows by one entry per
    frame; the registry is not touched. *)
Theorem agent_audio_forwarded_with_marks connections (frames : list bytes) st :
  Py.truthy (stream_sid st) = true ->
  connection_active st = true ->
  a_out (receive_from_deepgram connections (audio_item <$> frames) st)
  = concat (forwarded (stream_sid st) <$> frames)
  /\ mark_queue (a_final (receive_from_deepgram connections (audio_item <$> frames) st))
     = mark_queue st ++ replicate (length frames) "responsePart"
  /\ a_store (receive_from_deepgram connections (audio_item <$> frames) st) = connections.
Proof.
  revert st. induction frames as [|audio frames IH]; intros st Hsid Hactive.
  - cbn. now rewrite app_nil_r.
  - change (audio_item <$> audio :: frames)
      with (AgMessage (DgBinary audio) :: (audio_item <$> frames)).
    rewrite receive_from_deepgram_cons by assumption.
    cbn [on_deepgram_message]. rewrite on_deepgram_binary_streaming by assumption.
    destruct (IH (set_mark_queue (mark_queue st ++ ["responsePart"])
                    (set_speech_started false st)) Hsid Hactive)
      as (Hout & Hmarks & Hstore).
    cbn [a_emit a_out a_final a_store]. rewrite Hout, Hmarks, Hstore.
    cbn [stream_sid set_mark_queue set_speech_started mark_queue].
    repeat split. cbn [length replicate]. now rewrite <- app_assoc.
Qed.

Lemma agent_audio_forwarded_with_marks_witness :
  a_out (receive_from_deepgram ∅ (audio_item <$> [[Byte.x01]; [Byte.x02]]) streaming)
  = [TwilioSend (OutMedia (Some "MZ1") [Byte.x01]);
     TwilioSend (OutMark (Some "MZ1") "responsePart");
     TwilioSend (OutMedia (Some "MZ1") [Byte.x02]);
     TwilioSend (OutMark (Some "MZ1") "responsePart")]
  /\ mark_queue (a_final (receive_from_deepgram ∅
                            (audio_item <$> [[Byte.x01]; [Byte.x02]]) streaming))
     = ["responsePart"; "responsePart"].
Proof.
  destruct (agent_audio_forwarded_with_marks ∅ [[Byte.x01]; [Byte.x02]] streaming
              eq_refl eq_refl) as (Hout & Hmarks & _).
  exact (conj Hout Hmarks).
Defined.

(** ** Barge-in twice *)

Lemma on_user_started_speaking_twice connections st :
  match on_user_started_speaking connections st with
  | AgentNext c' st' _ =>
      on_user_started_speaking c' st' = AgentNext connections st' []
  | AgentExit _ _ _ => False
  end.
Proof.
  unfold on_user_started_speaking at 1. cbn.
  destruct (response_start_timestamp_twilio st) as [t|] eqn:Hstart.
  - destruct (Py.truthy (stream_sid st) && Py.truthy (last_assistant_item st)) eqn:Hguard.
    + reflexivity.
    + unfold on_user_started_speaking. cbn. now rewrite Hstart, Hguard.
  - unfold on_user_started_speaking. cbn. now rewrite Hstart.
Qed.

(** X11. A second "UserStartedSpeaking" event right after a first one does
    nothing: no truncate and no clear are sent again, and the state and all
    that follows are as after the first. *)
Theorem barge_in_twice_is_once connections data1 data2 items st :
  d_type data1 = Some "UserStartedSpeaking" ->
  d_type data2 = Some "UserStartedSpeaking" ->
  receive_from_deepgram connections
    (AgMessage (DgStr (DgJson data1)) :: AgMessage (DgStr (DgJson data2)) :: items) st
  = receive_from_deepgram connections (AgMessage (DgStr (DgJson data1)) :: items) st.
Proof.
  intros Htype1 Htype2.
  destruct (connection_active st) eqn:Hactive;
    [|cbn [receive_from_deepgram]; now rewrite Hactive].
  rewrite !(receive_from_deepgram_cons _ _ _ st) by assumption.
  rewrite (on_user_started_speaking_event _ _ _ Htype1).
  pose proof (on_user_started_speaking_twice connections st) as Htwice.
  assert (Hkept : connection_active
                    (agent_after (on_user_started_speaking connections st)) = true).
  { unfold on_user_started_speaking. cbn.
    destruct (response_start_timestamp_twilio st); [|exact Hactive].
    now destruct (Py.truthy (stream_sid st) && Py.truthy (last_assistant_item st)). }
  destruct (on_user_started_speaking connections st) as [c' st' o|c' st' o];
    [|contradiction].
  cbn [agent_after] in Hkept.
  rewrite receive_from_deepgram_cons by assumption.
  rewrite (on_user_started_speaking_event _ _ _ Htype2), Htwice.
  assert (Hstore : c' = connections).
  { unfold on_user_started_speaking in Htwice.
    destruct (response_start_timestamp_twilio (set_speech_started true st'));
      [destruct (Py.truthy _ && Py.truthy _)|]; congruence. }
  subst c'. now rewrite a_emit_nil.
Qed.

Lemma barge_in_twice_is_once_witness :
  receive_from_deepgram ∅
    [AgMessage (DgStr (DgJson user_started_speaking));
     AgMessage (DgStr (DgJson user_started_speaking))] mid_utterance
  = receive_from_deepgram ∅ [AgMessage (DgStr (DgJson user_started_speaking))]
      mid_utterance.
Proof.
  apply (barge_in_twice_is_once ∅ user_started_speaking user_started_speaking []
           mid_utterance); reflexivity.
Defined.

(** ** The transcript *)

(** A conversation text of the agent with a role and a content, and whatever
    item id. *)
Definition text_event (m : message * option string) : agent_item :=
  AgMessage (DgStr (DgJson {| d_type := Some "ConversationText";
                              d_role := Some (role m.1); d_content := Some (content m.1);
                              d_item_id := m.2; d_name := None;
                              d_parameters := ParamsAbsent |})).

(** The texts that are logged: those with a role and a content that are not
    empty. *)
Definition logged (ms : list (message * option string)) : list message :=
  fst <$> filter (fun m => role m.1 <> "" /\ content m.1 <> "") ms.

Lemma truthy_nonempty (s : string) : Py.truthy (Some s) = true <-> s <> "".
Proof.
  cbn [Py.truthy]. destruct (String.eqb_spec s ""); cbn; split; congruence.
Qed.

Lemma text_event_step connections m st :
  exists st',
    on_deepgram_message connections (DgStr (DgJson {|
        d_type := Some "ConversationText";
        d_role := Some (role m.1); d_content := Some (content m.1);
        d_item_id := m.2; d_name := None; d_parameters := ParamsAbsent |})) st
    = AgentNext
        (if Py.truthy (Some (role m.1)) && Py.truthy (Some (content m.1))
         then add_message (call_sid st) (role m.1) (content m.1) connections
         else connections) st' []
    /\ call_sid st' = call_sid st
    /\ connection_active st' = connection_active st.
Proof.
  cbn [on_deepgram_message on_deepgram_text d_type].
  change (String.eqb (Py.lower "ConversationText") "conversationtext") with true.
  cbn match. unfold on_conversation_text. cbn [d_role d_content d_item_id].
  destruct (Py.truthy (Some (role m.1)) && Py.truthy (Some (content m.1)));
    [|now exists st].
  destruct (String.eqb (role m.1) "assistant"); [|now exists st].
  cbn. destruct (response_start_timestamp_twilio st); eexists; split; reflexivity || auto.
Qed.

(** X12. For a call that is registered, the conversation texts that the
    agent reports are appended to the call's log in the order they arrive,
    users' and assistant's alike; texts with an empty role or an empty
    content are left out; and nothing is sent to either socket for them. *)
Theorem transcript_in_arrival_order connections (ms : list (message * option string))
    (id : string) (data : connection_data) st :
  connection_active st = true ->
  call_sid st = Some id ->
  ConnectionStore.get_connection id connections = Some data ->
  ConnectionStore.get_messages id
    (a_store (receive_from_deepgram connections (text_event <$> ms) st))
  = messages data ++ logged ms
  /\ a_out (receive_from_deepgram connections (text_event <$> ms) st) = [].
Proof.
  unfold ConnectionStore.get_messages, ConnectionStore.get_connection.
  revert connections data st.
  induction ms as [|m ms IH]; intros connections data st Hactive Hcall Hid.
  - cbn. now rewrite Hid, app_nil_r.
  - change (text_event <$> m :: ms) with (text_event m :: (text_event <$> ms)).
    unfold text_event at 1 3. rewrite !receive_from_deepgram_cons by assumption.
    destruct (text_event_step connections m st) as (st' & Hstep & Hcall' & Hactive').
    rewrite Hstep. cbn [a_emit a_out a_store app].
    rewrite Hcall in Hstep |- *. rewrite Hcall in Hcall'. rewrite Hactive in Hactive'.
    unfold logged. rewrite filter_cons.
    destruct (decide (role m.1 <> "" /\ content m.1 <> "")) as [[Hrole Hcontent]|Hempty].
    + apply truthy_nonempty in Hrole, Hcontent. rewrite Hrole, Hcontent. cbn [andb].
      cbn [add_message]. rewrite (add_message_known _ _ _ _ _ Hid).
      destruct (IH (<[id := {| phone := phone data;
                               messages := messages data
                                           ++ [{| role := role m.1;
                                                  content := content m.1 |}] |}]>
                      connections)
                  {| phone := phone data;
                     messages := messages data
                                 ++ [{| role := role m.1; content := content m.1 |}] |}
                  st' Hactive' Hcall' (lookup_insert_eq _ _ _)) as [Hlog Hout].
      rewrite Hlog, Hout. cbn [messages fmap list_fmap fst].
      rewrite <- app_assoc. cbn [app]. now destruct m as [[r c] item].
    + assert (Hskip : Py.truthy (Some (role m.1)) && Py.truthy (Some (content m.1)) = false).
      { destruct (Py.truthy (Some (role m.1))) eqn:Hrole;
          destruct (Py.truthy (Some (content m.1))) eqn:Hcontent; try reflexivity.
        apply truthy_nonempty in Hrole, Hcontent. tauto. }
      rewrite Hskip. exact (IH connections data st' Hactive' Hcall' Hid).
Qed.

Definition reported : list (message * option string) :=
  [ ({| role := "assistant"; content := "Hello!" |}, None);
    ({| role := "user"; content := "" |}, None);
    ({| role := "user"; content := "Hi, this is Ann." |}, None) ].

Lemma transcript_in_arrival_order_witness :
  ConnectionStore.get_messages "CA1"
    (a_store (receive_from_deepgram
                (ConnectionStore.add_connection "CA1" bakery_call ∅)
                (text_event <$> reported) mid_utterance))
  = greeting
  /\ a_out (receive_from_deepgram
              (ConnectionStore.add_connection "CA1" bakery_call ∅)
              (text_event <$> reported) mid_utterance) = [].
Proof.
  apply (transcript_in_arrival_order
           (ConnectionStore.add_connection "CA1" bakery_call ∅) reported "CA1"
           bakery_call mid_utterance); reflexivity.
Defined.

(** ** How the agent loop ends *)

(** Handling a parsed message raises: its ["type"] cannot be read and
    lower-cased, or it is a call of [store_contact_info] whose
    ["parameters"] are no object. *)
Definition raises (data : deepgram_data) : bool :=
  match d_type data with
  | None => true
  | Some event =>
      String.eqb (Py.lower event) "functioncall"
      && bool_decide (d_name data = Some "store_contact_info")
      && match d_parameters data with ParamsInvalid => true | _ => false end
  end.

(** An item that does not end the loop: a message that is binary, or no
    JSON, or JSON that is handled without an exception. *)
Definition harmless (item : agent_item) : Prop :=
  match item with
  | AgMessage (DgStr (DgJson data)) => raises data = false
  | AgMessage _ => True
  | AgClosed => False
  end.

Lemma functioncall_not_conversationtext (event : string) :
  String.eqb (Py.lower event) "functioncall" = true ->
  String.eqb (Py.lower event) "conversationtext" = false.
Proof. intros Hcall. apply String.eqb_eq in Hcall. now rewrite Hcall. Qed.

Lemma on_deepgram_message_next connections message st :
  harmless (AgMessage message) ->
  exists c' st' o,
    on_deepgram_message connections message st = AgentNext c' st' o
    /\ connection_active st' = connection_active st.
Proof.
  intros Hok.
  destruct message as [[|data]|audio]; cbn [on_deepgram_message on_deepgram_text].
  - now exists connections, st, [].
  - cbn [harmless] in Hok. unfold raises in Hok.
    destruct (d_type data) as [event|]; [|discriminate].
    destruct (String.eqb (Py.lower event) "conversationtext").
    { unfold on_conversation_text.
      destruct (d_role data) as [r|]; [|now exists connections, st, []].
      destruct (d_content data) as [c|]; [|now exists connections, st, []].
      destruct (Py.truthy (Some r) && Py.truthy (Some c)); [|now exists connections, st, []].
      destruct (String.eqb r "assistant"); [|now eexists _, st, []].
      cbn. destruct (response_start_timestamp_twilio st); now eexists _, _, []. }
    destruct (String.eqb (Py.lower event) "functioncall").
    { unfold on_function_call.
      destruct (decide (d_name data = Some "store_contact_info")) as [Hname|Hname];
        [|now eexists _, st, []].
      rewrite (bool_decide_eq_true_2 _ Hname) in Hok.
      destruct (d_parameters data); try discriminate Hok; now eexists _, st, []. }
    destruct (String.eqb event "UserStartedSpeaking"); [|now exists connections, st, []].
    unfold on_user_started_speaking. cbn.
    destruct (response_start_timestamp_twilio st); [|now eexists _, _, []].
    destruct (Py.truthy (stream_sid st) && Py.truthy (last_assistant_item st));
      now eexists _, _, _.
  - unfold on_deepgram_binary, send_mark. cbn [stream_sid set_speech_started].
    destruct (Py.truthy (stream_sid st)); now eexists _, _, _.
Qed.

Lemma on_deepgram_message_raises connections data st :
  raises data = true ->
  on_deepgram_message connections (DgStr (DgJson data)) st
  = AgentExit connections (set_connection_active false st) [].
Proof.
  unfold raises. cbn [on_deepgram_message on_deepgram_text].
  destruct (d_type data) as [event|]; [|reflexivity].
  intros Hraises. apply andb_prop in Hraises as [Hraises Hparams].
  apply andb_prop in Hraises as [Hcall Hname].
  rewrite (functioncall_not_conversationtext _ Hcall), Hcall.
  unfold on_function_call.
  apply bool_decide_eq_true_1 in Hname.
  destruct (decide (d_name data = Some "store_contact_info")) as [_|Hne];
    [|contradiction].
  now destruct (d_parameters data).
Qed.

(** The item that ends a loop that is active. *)
Lemma receive_from_deepgram_ends connections item rest st :
  ~ harmless item ->
  connection_active st = true ->
  connection_active (a_final (receive_from_deepgram connections (item :: rest) st))
  = false.
Proof.
  intros Hends Hactive. destruct item as [[[|data]|audio]|]; cbn [harmless] in Hends.
  all: try tauto.
  apply not_false_is_true in Hends.
  cbn [receive_from_deepgram]. rewrite Hactive. cbn [negb].
  now rewrite on_deepgram_message_raises.
Qed.

(** A call of [store_contact_info] whose ["parameters"] are null. *)
Definition store_contact_null : deepgram_data :=
  {| d_type := Some "FunctionCall"; d_role := None; d_content := None;
     d_item_id := None; d_name := Some "store_contact_info";
     d_parameters := ParamsInvalid |}.

(** X13. While the sends to the two sockets succeed, the agent loop clears
    [connection_active] in exactly three cases: the agent socket is closed
    under it, a message has no ["type"] that can be read, or a call of
    [store_contact_info] carries ["parameters"] that are no object. When the
    stream of agent messages just ends, after messages that are audio, no
    JSON at all, or JSON handled without an exception, the loop returns with
    [connection_active] as it was; and an active loop that meets one of the
    three cases ends with [connection_active] false, whatever follows. *)
Theorem agent_loop_normal_end_keeps_active connections items st :
  Forall harmless items ->
  connection_active (a_final (receive_from_deepgram connections items st))
  = connection_active st
  /\ (forall item rest,
        ~ harmless item ->
        connection_active st = true ->
        connection_active
          (a_final (receive_from_deepgram connections (items ++ item :: rest) st))
        = false).
Proof.
  intros Hitems. revert connections st.
  induction Hitems as [|item items Hitem _ IH]; intros connections st.
  - split; [reflexivity|]. intros item rest. apply receive_from_deepgram_ends.
  - destruct item as [message|]; [|contradiction].
    cbn [receive_from_deepgram app].
    destruct (on_deepgram_message_next connections message st Hitem)
      as (c' & st' & o & Hstep & Hactive').
    rewrite Hstep.
    destruct (IH c' st') as [Hkeeps Hends].
    split.
    + destruct (connection_active st) eqn:Hactive; cbn [negb]; [|exact Hactive].
      cbn [a_emit a_final]. rewrite Hkeeps. exact Hactive'.
    + intros item rest Hitem' Hactive. rewrite Hactive. cbn [negb a_emit a_final].
      apply Hends; congruence.
Qed.

Lemma agent_loop_normal_end_keeps_active_witness :
  connection_active
    (a_final (receive_from_deepgram ∅
                [AgMessage (DgStr DgMalformed); AgMessage (DgBinary [Byte.x7f]);
                 AgMessage (DgStr (DgJson user_started_speaking))] mid_utterance))
  = true
  /\ connection_active
       (a_final (receive_from_deepgram ∅
                   ([AgMessage (DgStr DgMalformed); AgMessage (DgBinary [Byte.x7f]);
                     AgMessage (DgStr (DgJson user_started_speaking))]
                    ++ AgMessage (DgStr (DgJson store_contact_null))
                    :: [AgMessage (DgBinary [Byte.x7f])]) mid_utterance))
     = false.
Proof.
  destruct (agent_loop_normal_end_keeps_active ∅
              [AgMessage (DgStr DgMalformed); AgMessage (DgBinary [Byte.x7f]);
               AgMessage (DgStr (DgJson user_started_speaking))] mid_utterance)
    as [Hkeeps Hends].
  - repeat constructor.
  - split; [exact Hkeeps|].
    apply (Hends (AgMessage (DgStr (DgJson store_contact_null)))
             [AgMessage (DgBinary [Byte.x7f])]).
    + cbn. discriminate.
    + reflexivity.
Defined.

(** ** How a call ends *)

Fixpoint cleanups (events : list stream_event) : nat :=
  match events with
  | [] => 0
  | Cleanup :: events => S (cleanups events)
  | _ :: events => cleanups events
  end.

(** An attempt or the sleep before the next one. *)
Definition connecting (e : stream_event) : Prop :=
  match e with
  | Connect _ | Sleep _ => True
  | TasksStarted | Cleanup => False
  end.

(** The session of a call ends with [connection_active] still true on an
    attempt that is not the last one. *)
Definition ends_active_early (outcome : nat -> attempt_outcome) : bool :=
  match outcome 0%nat with
  | Connected active => active
  | _ =>
      match outcome 1%nat with
      | Connected active => active
      | _ => false
      end
  end.

Lemma retry_loop_shape outcome :
  exists attempts ending,
    retry_loop outcome (seq 0 max_retries) 1 true = attempts ++ ending
    /\ Forall connecting attempts
    /\ (ending = [Cleanup] \/ ending = [TasksStarted] \/ ending = [TasksStarted; Cleanup])
    /\ cleanups (retry_loop outcome (seq 0 max_retries) 1 true)
       = (if ends_active_early outcome then 0 else 1)%nat.
Proof.
  unfold ends_active_early. cbn [seq max_retries retry_loop].
  destruct (outcome 0%nat) as [| | | |[|]];
    try (eexists [Connect 0], _; cbn; split; [reflexivity|];
         split; [repeat constructor|]; split; [auto|reflexivity]);
    destruct (outcome 1%nat) as [| | | |[|]];
    try (eexists [Connect 0; Sleep 1; Connect 1], _; cbn; split; [reflexivity|];
         split; [repeat constructor|]; split; [auto|reflexivity]);
    try (eexists [Connect 0; Connect 1], _; cbn; split; [reflexivity|];
         split; [repeat constructor|]; split; [auto|reflexivity]);
    destruct (outcome 2%nat) as [| | | |[|]];
    first
      [ eexists [Connect 0; Sleep 1; Connect 1; Sleep 2; Connect 2], _; cbn;
        split; [reflexivity|]; split; [repeat constructor|]; split; [auto|reflexivity]
      | eexists [Connect 0; Sleep 1; Connect 1; Connect 2], _; cbn;
        split; [reflexivity|]; split; [repeat constructor|]; split; [auto|reflexivity]
      | eexists [Connect 0; Connect 1; Sleep 1; Connect 2], _; cbn;
        split; [reflexivity|]; split; [repeat constructor|]; split; [auto|reflexivity]
      | eexists [Connect 0; Connect 1; Connect 2], _; cbn;
        split; [reflexivity|]; split; [repeat constructor|]; split; [auto|reflexivity] ].
Qed.

(** X14. A call is never reconnected once its tasks were started: whatever
    the attempts give, the handler first only connects and sleeps, and then
    ends in one of three ways: clean-up alone (no attempt succeeded), the
    tasks and then the clean-up, or the tasks alone. *)
Theorem no_reconnect_after_start connections first outcome st :
  h_state (handle_media_stream connections first outcome) = Some st ->
  exists attempts ending,
    h_events (handle_media_stream connections first outcome) = attempts ++ ending
    /\ Forall (fun e => match e with
                        | Connect _ | Sleep _ => True
                        | TasksStarted | Cleanup => False
                        end) attempts
    /\ (ending = [Cleanup] \/ ending = [TasksStarted] \/ ending = [TasksStarted; Cleanup]).
Proof.
  intros Hstate. rewrite (handle_media_stream_events _ _ _ _ Hstate).
  destruct (retry_loop_shape outcome) as (attempts & ending & Hevents & Hattempts & Hending & _).
  eauto.
Qed.

Lemma no_reconnect_after_start_witness :
  exists attempts ending,
    h_events (handle_media_stream ∅ (Some start_arrival) two_handshake_failures)
    = attempts ++ ending
    /\ Forall (fun e => match e with
                        | Connect _ | Sleep _ => True
                        | TasksStarted | Cleanup => False
                        end) attempts
    /\ (ending = [Cleanup] \/ ending = [TasksStarted] \/ ending = [TasksStarted; Cleanup]).
Proof.
  apply (no_reconnect_after_start ∅ (Some start_arrival) two_handshake_failures
           _ eq_refl).
Defined.

(** X15. The clean-up (which prints and logs the transcript and closes the
    agent socket) runs at most once per call, and it does not run at all
    exactly when the session of the first or of the second attempt ends with
    [connection_active] still true. *)
Theorem cleanup_skipped_when_still_active connections first outcome st :
  h_state (handle_media_stream connections first outcome) = Some st ->
  cleanups (h_events (handle_media_stream connections first outcome))
  = (if ends_active_early outcome then 0 else 1)%nat.
Proof.
  intros Hstate. rewrite (handle_media_stream_events _ _ _ _ Hstate).
  destruct (retry_loop_shape outcome) as (attempts & ending & _ & _ & _ & Hcleanups).
  exact Hcleanups.
Qed.

Lemma cleanup_skipped_when_still_active_witness :
  cleanups (h_events (handle_media_stream ∅ (Some start_arrival)
                        (fun _ => Connected true))) = 0%nat
  /\ cleanups (h_events (handle_media_stream ∅ (Some start_arrival)
                           two_handshake_failures)) = 1%nat.
Proof.
  split.
  - apply (cleanup_skipped_when_still_active ∅ (Some start_arrival)
             (fun _ => Connected true) _ eq_refl).
  - apply (cleanup_skipped_when_still_active ∅ (Some start_arrival)
             two_handshake_failures _ eq_refl).
Defined.

(** ** handle_incoming_call *)

(** The signalling request of a new call: the form fields ["From"] and
    ["CallSid"] (absent or present) and the host of the request. The call is
    registered, and the stream URL of the TwiML answer is returned. *)
Definition handle_incoming_call (from callSid host : option string)
    (connections : gmap string connection_data)
    : gmap string connection_data * string :=
  let caller_phone := default "Unknown" from in
  let call_sid := default "unknown-call" callSid in
  let connections :=
    ConnectionStore.add_connection call_sid
      {| phone := Some caller_phone; messages := [] |} connections in
  (connections,
   "wss://" +:+ Py.fmt host +:+ "/deepgram-media-stream?call_sid=" +:+ call_sid).

(** X16. The phone number registered when the call was signalled is found
    again when the media stream of that call starts: after a start message
    that arrives in time and names the call id, [call_sid] is that id,
    [caller_phone] is the ["From"] of the signalling request ("Unknown"
    when it had none), the start data are kept and the call's log is
    empty. *)
Theorem caller_phone_found_at_stream_start (from host : option string) (sid : string)
    (s : start_fields) (wait : Z) (connections : gmap string connection_data) :
  sid <> "" ->
  s_callSid s = Some sid ->
  wait < RECEIVE_TIMEOUT_MS ->
  exists st,
    initialize_connection_state
      (handle_incoming_call from (Some sid) host connections).1
      (Some (wait, WsText (TwJson (EvStart (Some s))))) initial_state = Some st
    /\ call_sid st = Some sid
    /\ caller_phone st = default "Unknown" from
    /\ start_data st = Some (EvStart (Some s))
    /\ connection_active st = true
    /\ ConnectionStore.get_messages sid
         (handle_incoming_call from (Some sid) host connections).1 = [].
Proof.
  intros Hsid Hcall Hwait. apply Z.ltb_lt in Hwait.
  unfold initialize_connection_state. rewrite Hwait, Hcall.
  apply truthy_nonempty in Hsid. unfold Py.or_. rewrite Hsid.
  cbn [call_sid set_call_sid lookup_call handle_incoming_call fst default].
  unfold ConnectionStore.get_messages, ConnectionStore.get_connection,
    ConnectionStore.add_connection.
  rewrite lookup_insert_eq. cbn [phone messages].
  eexists. split; [reflexivity|]. cbn. auto.
Qed.

Lemma caller_phone_found_at_stream_start_witness :
  exists st,
    initialize_connection_state
      (handle_incoming_call (Some "+15550100") (Some "CA1") (Some "example.org") ∅).1
      (Some (10, WsText (TwJson (EvStart (Some {| s_streamSid := Some "MZ1";
                                                  s_callSid := Some "CA1" |})))))
      initial_state = Some st
    /\ call_sid st = Some "CA1"
    /\ caller_phone st = "+15550100"
    /\ start_data st = Some (EvStart (Some {| s_streamSid := Some "MZ1";
                                              s_callSid := Some "CA1" |}))
    /\ connection_active st = true
    /\ ConnectionStore.get_messages "CA1"
         (handle_incoming_call (Some "+15550100") (Some "CA1") (Some "example.org") ∅).1
       = [].
Proof.
  apply (caller_phone_found_at_stream_start (Some "+15550100") (Some "example.org") "CA1"
           {| s_streamSid := Some "MZ1"; s_callSid := Some "CA1" |} 10 ∅).
  - discriminate.
  - reflexivity.
  - reflexivity.
Defined.

(** ** send_to_deepgram *)

(** [while connection_state["connection_active"]]: a frame is taken from
    [audio_queue] and sent if the agent socket is there and not closed. The
    queue is given by the frames it delivers, each with whether the socket
    is open when the frame is taken; when it delivers no more, [get()] does
    not return. *)
Fixpoint send_to_deepgram (queue : list (bytes * bool)) (st : connection_state)
    : list effect * task_status :=
  if negb (connection_active st) then ([], Returned)
  else
    match queue with
    | [] => ([], Blocked)
    | (audio_chunk, open) :: queue =>
        let '(o, s) := send_to_deepgram queue st in
        ((if open then [DeepgramSend (OutAudio audio_chunk)] else []) ++ o, s)
    end.

(** The frames uploaded to the agent, in order. *)
Definition uploaded (o : list effect) : list bytes :=
  omap (fun e => match e with DeepgramSend (OutAudio frame) => Some frame | _ => None end) o.

Lemma send_to_deepgram_open (frames : list bytes) st :
  connection_active st = true ->
  send_to_deepgram ((fun frame => (frame, true)) <$> frames) st
  = ((fun frame => DeepgramSend (OutAudio frame)) <$> frames, Blocked).
Proof.
  intros Hactive. induction frames as [|frame frames IH].
  - cbn. now rewrite Hactive.
  - cbn [fmap list_fmap send_to_deepgram]. rewrite Hactive. cbn [negb].
    fold (fmap (M := list) (fun frame => (frame, true)) frames). rewrite IH.
    reflexivity.
Qed.

Lemma uploaded_sent (frames : list bytes) :
  uploaded ((fun frame => DeepgramSend (OutAudio frame)) <$> frames) = frames.
Proof.
  induction frames as [|frame frames IH]; [reflexivity|].
  change (uploaded ((fun frame => DeepgramSend (OutAudio frame)) <$> frame :: frames))
    with (frame :: uploaded ((fun frame => DeepgramSend (OutAudio frame)) <$> frames)).
  now rewrite IH.
Qed.

Lemma frames_put_emit o r :
  frames_put (out (emit o r)) = frames_put o ++ frames_put (out r).
Proof. cbn [emit out]. unfold frames_put. apply omap_app. Qed.

(** X17. From the telephony socket to the agent socket: when the frames
    that [receive_from_twilio] has put into [audio_queue] for a sequence of
    inbound chunks are taken by [send_to_deepgram] while the agent socket is
    open, the bytes uploaded to the agent are the bytes of the chunks that
    arrived within the receive timeout, in order, up to the last whole frame
    of 3200 bytes. These are all the bytes received, up to that frame, when
    every chunk arrived in time; the bytes of a chunk that arrived after a
    receive had timed out never reach the agent. The upload loop does not
    end by itself when the queue runs empty. *)
Theorem inbound_audio_reaches_agent connections (chunks : list inbound_chunk) st :
  connection_active st = true ->
  concat (uploaded
            (send_to_deepgram
               ((fun frame => (frame, true))
                  <$> frames_put (out (twilio_loop connections (media_arrival <$> chunks)
                                         st [])))
               (final (twilio_loop connections (media_arrival <$> chunks) st []))).1)
  = take (length (input_bytes (in_time chunks)) / 3200 * 3200)
      (input_bytes (in_time chunks))
  /\ (send_to_deepgram
        ((fun frame => (frame, true))
           <$> frames_put (out (twilio_loop connections (media_arrival <$> chunks) st [])))
        (final (twilio_loop connections (media_arrival <$> chunks) st []))).2 = Blocked
  /\ (Forall (fun c => c_wait c < RECEIVE_TIMEOUT_MS) chunks -> in_time chunks = chunks).
Proof.
  intros Hactive. rewrite <- BUFFER_SIZE_eq.
  rewrite <- (app_nil_r (media_arrival <$> chunks)).
  destruct (twilio_loop_chunks connections chunks st [] Hactive BUFFER_SIZE_pos)
    as (o & Hloop & Hframes & _ & _).
  rewrite (Hloop []).
  assert (Hactive' : connection_active (after_chunks (in_time chunks) st) = true)
    by now rewrite after_chunks_active.
  rewrite twilio_loop_nil by assumption.
  rewrite frames_put_emit, Hframes. cbn [emit final out frames_put omap].
  rewrite app_nil_r, send_to_deepgram_open by assumption. cbn [fst snd].
  rewrite uploaded_sent. split; [|split; [reflexivity|apply in_time_all]].
  apply (drain_frames_take_drop (input_bytes (in_time chunks))).
Qed.

(** Of [stalled_chunks] the first and the third reach the agent, as one
    frame. *)
Lemma inbound_audio_reaches_agent_witness :
  concat (uploaded
            (send_to_deepgram
               ((fun frame => (frame, true))
                  <$> frames_put (out (twilio_loop ∅ (media_arrival <$> stalled_chunks)
                                         streaming [])))
               (final (twilio_loop ∅ (media_arrival <$> stalled_chunks) streaming []))).1)
  = take (length (input_bytes (in_time stalled_chunks)) / 3200 * 3200)
      (input_bytes (in_time stalled_chunks))
  /\ in_time two_chunks = two_chunks.
Proof.
  destruct (inbound_audio_reaches_agent ∅ stalled_chunks streaming eq_refl)
    as (Huploaded & _ & _).
  destruct (inbound_audio_reaches_agent ∅ two_chunks streaming eq_refl)
    as (_ & _ & Hall).
  split; [exact Huploaded|]. apply Hall. repeat constructor.
Defined.

(** X18. Frames that are taken from [audio_queue] while the agent socket is
    closed are dropped without an error, and the loop goes on: it never
    returns while [connection_active] is true, and what it uploads are the
    frames taken while the socket was open, in order. *)
Theorem upload_drops_frames_while_closed (queue : list (bytes * bool)) st :
  connection_active st = true ->
  (send_to_deepgram queue st).2 = Blocked
  /\ uploaded (send_to_deepgram queue st).1 = fst <$> filter (fun item => item.2 = true) queue.
Proof.
  intros Hactive. induction queue as [|[frame open] queue [IHs IHo]].
  - cbn. now rewrite Hactive.
  - cbn [send_to_deepgram]. rewrite Hactive. cbn [negb].
    destruct (send_to_deepgram queue st) as [o s]. cbn [fst snd] in *.
    split; [assumption|]. rewrite filter_cons. unfold uploaded in *. rewrite omap_app.
    destruct open; cbn [snd].
    + destruct (decide (true = true)) as [_|Hne]; [|congruence].
      cbn. now rewrite IHo.
    + destruct (decide (false = true)) as [Heq|_]; [discriminate|].
      cbn. exact IHo.
Qed.

Lemma upload_drops_frames_while_closed_witness :
  (send_to_deepgram [([Byte.x01], true); ([Byte.x02], false); ([Byte.x03], true)]
     streaming).2 = Blocked
  /\ uploaded (send_to_deepgram
                 [([Byte.x01], true); ([Byte.x02], false); ([Byte.x03], true)]
                 streaming).1
     = [[Byte.x01]; [Byte.x03]].
Proof.
  apply (upload_drops_frames_while_closed
           [([Byte.x01], true); ([Byte.x02], false); ([Byte.x03], true)] streaming).
  reflexivity.
Defined.

(** ** utils.parse_bool *)

(** [str.isspace] on the ASCII characters: tab to carriage return, the four
    separators 28 to 31, and the space. *)
Definition is_space (c : ascii) : bool :=
  let n := nat_of_ascii c in
  ((9 <=? n)%nat && (n <=? 13)%nat) || ((28 <=? n)%nat && (n <=? 32)%nat).

Fixpoint lstrip (s : string) : string :=
  match s with
  | EmptyString => EmptyString
  | String c s' => if is_space c then lstrip s' else s
  end.

Fixpoint rstrip (s : string) : string :=
  match s with
  | EmptyString => EmptyString
  | String c s' =>
      match rstrip s' with
      | EmptyString => if is_space c then EmptyString else String c EmptyString
      | r => String c r
      end
  end.

(** [str.strip()], for text whose white space is ASCII. *)
Definition strip (s : string) : string := rstrip (lstrip s).

Definition true_values : list string := ["true"; "1"; "yes"; "y"; "on"].
Definition false_values : list string := ["false"; "0"; "no"; "n"; "off"].

(** [parse_bool]; [None] is the ValueError. *)
Definition parse_bool (value : string) : option bool :=
  let value_lower := Py.lower (strip value) in
  if existsb (String.eqb value_lower) true_values then Some true
  else if existsb (String.eqb value_lower) false_values then Some false
  else None.

(** A string of white space only. *)
Fixpoint blank (s : string) : bool :=
  match s with
  | EmptyString => true
  | String c s' => is_space c && blank s'
  end.

Lemma is_space_lower (c : ascii) : is_space (Py.lower_ascii c) = is_space c.
Proof. destruct c as [[] [] [] [] [] [] [] []]; reflexivity. Qed.

Lemma lower_lstrip (s : string) : Py.lower (lstrip s) = lstrip (Py.lower s).
Proof.
  induction s as [|c s IH]; [reflexivity|].
  cbn [lstrip Py.lower]. rewrite is_space_lower.
  now destruct (is_space c).
Qed.

Lemma lower_rstrip (s : string) : Py.lower (rstrip s) = rstrip (Py.lower s).
Proof.
  induction s as [|c s IH]; [reflexivity|].
  cbn [rstrip Py.lower]. rewrite <- IH, is_space_lower.
  destruct (rstrip s) as [|c' r]; [now destruct (is_space c)|reflexivity].
Qed.

Lemma lower_strip (s : string) : Py.lower (strip s) = strip (Py.lower s).
Proof. unfold strip. now rewrite lower_rstrip, lower_lstrip. Qed.

Lemma lstrip_blank (pad : string) : blank pad = true -> lstrip pad = "".
Proof.
  induction pad as [|c pad IH]; [reflexivity|].
  cbn [blank lstrip]. intros [Hc Hpad]%andb_prop. rewrite Hc. auto.
Qed.

Lemma rstrip_blank (pad : string) : blank pad = true -> rstrip pad = "".
Proof.
  induction pad as [|c pad IH]; [reflexivity|].
  cbn [blank rstrip]. intros [Hc Hpad]%andb_prop. now rewrite IH, Hc.
Qed.

Lemma lstrip_app_blank (pad s : string) :
  blank pad = true -> lstrip (pad +:+ s) = lstrip s.
Proof.
  induction pad as [|c pad IH]; [reflexivity|].
  cbn [blank]. intros [Hc Hpad]%andb_prop.
  change (String c pad +:+ s) with (String c (pad +:+ s)).
  cbn [lstrip]. rewrite Hc. auto.
Qed.

Lemma rstrip_app_blank (s pad : string) :
  blank pad = true -> rstrip (s +:+ pad) = rstrip s.
Proof.
  intros Hpad. induction s as [|c s IH]; [now apply rstrip_blank|].
  change (String c s +:+ pad) with (String c (s +:+ pad)).
  cbn [rstrip]. now rewrite IH.
Qed.

Lemma strip_app_blank (s pad : string) :
  blank pad = true -> strip (s +:+ pad) = strip s.
Proof.
  intros Hpad. unfold strip. induction s as [|c s IH].
  - change ("" +:+ pad) with pad. now rewrite lstrip_blank.
  - change (String c s +:+ pad) with (String c (s +:+ pad)).
    cbn [lstrip]. destruct (is_space c); [exact IH|].
    change (String c (s +:+ pad)) with (String c s +:+ pad).
    now apply rstrip_app_blank.
Qed.

(** X19. [parse_bool] does not look at the case of the letters: two strings
    that differ only in case give the same result (the same boolean, or the
    same error). *)
Theorem parse_bool_ignores_case (s t : string) :
  Py.lower s = Py.lower t -> parse_bool s = parse_bool t.
Proof.
  intros Hsame. unfold parse_bool. now rewrite !lower_strip, Hsame.
Qed.

Lemma parse_bool_ignores_case_witness :
  parse_bool "YES" = parse_bool "yes" /\ parse_bool "yEs" = Some true.
Proof.
  split.
  - apply (parse_bool_ignores_case "YES" "yes"). reflexivity.
  - rewrite (parse_bool_ignores_case "yEs" "yes"); reflexivity.
Defined.

(** X20. [parse_bool] does not look at white space around the value: padding
    on either side changes nothing; and a string of white space only (the
    empty string too) is an error, not false. *)
Theorem parse_bool_ignores_padding (before s after : string) :
  blank before = true ->
  blank after = true ->
  parse_bool (before +:+ s +:+ after) = parse_bool s
  /\ parse_bool before = None.
Proof.
  intros Hbefore Hafter. unfold parse_bool, strip.
  rewrite lstrip_app_blank by assumption.
  fold (strip (s +:+ after)). rewrite strip_app_blank by assumption.
  split; [reflexivity|].
  now rewrite lstrip_blank.
Qed.

Lemma parse_bool_ignores_padding_witness :
  parse_bool ("  " +:+ "off" +:+ String "010" "") = Some false
  /\ parse_bool "  " = None.
Proof.
  destruct (parse_bool_ignores_padding "  " "off" (String "010" "") eq_refl eq_refl)
    as [Hpad Hblank].
  split; [rewrite Hpad; reflexivity|exact Hblank].
Defined.

(** ** Agent events the relay does not know *)

(** X21. An agent event whose type is none of the three the relay knows is
    ignored: nothing is sent, nothing is logged, the state is as it was.
    "ConversationText" and "FunctionCall" are known in any case of the
    letters, "UserStartedSpeaking" only in this spelling: written otherwise
    it is ignored like an unknown type. *)
Theorem unknown_agent_event_ignored connections data event st :
  d_type data = Some event ->
  Py.lower event <> "conversationtext" ->
  Py.lower event <> "functioncall" ->
  event <> "UserStartedSpeaking" ->
  on_deepgram_message connections (DgStr (DgJson data)) st = AgentNext connections st [].
Proof.
  intros Htype Htext Hcall Hspeaking.
  cbn [on_deepgram_message on_deepgram_text]. rewrite Htype.
  apply String.eqb_neq in Htext, Hcall, Hspeaking.
  now rewrite Htext, Hcall, Hspeaking.
Qed.

Lemma unknown_agent_event_ignored_witness :
  on_deepgram_message ∅
    (DgStr (DgJson {| d_type := Some "userstartedspeaking"; d_role := None;
                      d_content := None; d_item_id := None; d_name := None;
                      d_parameters := ParamsAbsent |})) mid_utterance
  = AgentNext ∅ mid_utterance [].
Proof.
  apply (unknown_agent_event_ignored ∅ _ "userstartedspeaking" mid_utterance);
    [reflexivity|discriminate..].
Defined.

(** ** Marks pending and marks sent *)

Fixpoint marks_sent (o : list effect) : nat :=
  match o with
  | [] => 0
  | TwilioSend (OutMark _ _) :: o => S (marks_sent o)
  | _ :: o => marks_sent o
  end.

Lemma marks_sent_app o1 o2 : marks_sent (o1 ++ o2) = (marks_sent o1 + marks_sent o2)%nat.
Proof.
  induction o1 as [|e o1 IH]; [reflexivity|].
  destruct e as [frame|[sid payload|sid name|sid]|m|]; cbn; now rewrite ?IH.
Qed.

Lemma on_deepgram_message_marks connections message st :
  match on_deepgram_message connections message st with
  | AgentNext _ st' o | AgentExit _ st' o =>
      (length (mark_queue st') <= length (mark_queue st) + marks_sent o)%nat
  end.
Proof.
  destruct message as [[|data]|audio]; cbn [on_deepgram_message on_deepgram_text].
  - lia.
  - destruct (d_type data) as [event|]; [|cbn; lia].
    destruct (String.eqb (Py.lower event) "conversationtext").
    { unfold on_conversation_text.
      destruct (d_role data) as [r|]; [|lia].
      destruct (d_content data) as [c|]; [|lia].
      destruct (Py.truthy (Some r) && Py.truthy (Some c)); [|lia].
      destruct (String.eqb r "assistant"); [|lia].
      cbn. destruct (response_start_timestamp_twilio st); cbn; lia. }
    destruct (String.eqb (Py.lower event) "functioncall").
    { unfold on_function_call.
      destruct (decide (d_name data = Some "store_contact_info"));
        [destruct (d_parameters data)|]; cbn; lia. }
    destruct (String.eqb event "UserStartedSpeaking"); [|lia].
    unfold on_user_started_speaking. cbn.
    destruct (response_start_timestamp_twilio st); [|cbn; lia].
    destruct (Py.truthy (stream_sid st) && Py.truthy (last_assistant_item st)); cbn; lia.
  - unfold on_deepgram_binary, send_mark. cbn [stream_sid set_speech_started].
    destruct (Py.truthy (stream_sid st)); cbn; [|lia].
    unfold Py.append. rewrite length_app. cbn. lia.
Qed.

(** X22. Along the agent loop there are never more marks pending than were
    pending at its start plus the mark messages it has sent: one entry is
    queued per mark sent, and a barge-in only empties the queue. *)
Theorem pending_marks_bounded_by_sent connections items st :
  (length (mark_queue (a_final (receive_from_deepgram connections items st)))
   <= length (mark_queue st)
      + marks_sent (a_out (receive_from_deepgram connections items st)))%nat.
Proof.
  revert connections st.
  induction items as [|[message|] items IH]; intros connections st.
  - cbn. lia.
  - cbn [receive_from_deepgram].
    destruct (connection_active st); cbn [negb]; [|cbn; lia].
    pose proof (on_deepgram_message_marks connections message st) as Hstep.
    destruct (on_deepgram_message connections message st) as [c' st' o|c' st' o].
    + specialize (IH c' st'). cbn [a_emit a_final a_out].
      rewrite marks_sent_app. lia.
    + cbn. exact Hstep.
  - cbn. lia.
Qed.

Lemma on_twilio_text_marks connections message st inbuffer :
  (length (mark_queue (twilio_after (on_twilio_text connections message st inbuffer)))
   <= length (mark_queue st))%nat.
Proof.
  destruct message as [|data]; [cbn; lia|].
  destruct data as [media|start| | |event|]; cbn [on_twilio_text]; try (cbn; lia).
  - unfold on_media. destruct media as [m|]; [|cbn; lia].
    destruct (m_timestamp m); try (cbn; lia);
      (destruct (m_payload m) as [chunk|]; [|cbn; lia];
       destruct (decide (m_track m = Some "inbound")); [|cbn; lia];
       destruct (drain_frames (inbuffer ++ chunk)); cbn; lia).
  - destruct start as [s|]; [|cbn; lia].
    destruct (s_streamSid s) as [sid|] eqn:Hsid; [|cbn; rewrite Hsid; cbn; lia].
    destruct (handle_start_event_some connections s sid st Hsid)
      as (st' & Hstep & _ & _ & _ & _ & Hmarks & _).
    rewrite Hstep. cbn. rewrite Hmarks. lia.
  - destruct (mark_queue st) as [|x q] eqn:Hq; cbn; rewrite ?Hq; cbn; lia.
Qed.

(** X23. The telephony loop only ever takes marks away: whatever arrives,
    [mark_queue] is never longer at its end than at its start, and each mark
    event handled takes at most one entry. *)
Theorem telephony_loop_never_adds_marks connections arrivals st inbuffer :
  (length (mark_queue (final (twilio_loop connections arrivals st inbuffer)))
   <= length (mark_queue st))%nat.
Proof.
  apply (twilio_loop_invariant connections
           (fun st' _ => (length (mark_queue st') <= length (mark_queue st))%nat)
           (fun _ => True)).
  - intros message st0 inbuffer0 st' inbuffer' o Hinv Hstep.
    pose proof (on_twilio_text_marks connections message st0 inbuffer0) as H.
    rewrite Hstep in H. cbn [twilio_after] in H.
    split; [lia|]. apply Forall_forall. auto.
  - intros message st0 inbuffer0 st' o Hinv Hstep.
    pose proof (on_twilio_text_marks connections message st0 inbuffer0) as H.
    rewrite Hstep in H. cbn [twilio_after] in H.
    split; [lia|]. apply Forall_forall. auto.
  - intros st0 inbuffer0 Hinv. exact Hinv.
  - exact I.
  - lia.
Qed.

(** ** From the start message to the stream id *)

(** X24. The stream id of the start message that set the call up is the one
    in force when the telephony loop begins: with start data taken from a
    start message that names a stream, [receive_from_twilio] begins with
    that stream id and the media timestamp 0, and audio of the agent is
    then forwarded under that stream id. *)
Theorem stream_id_from_start_message connections first outcome wait s sid st audio :
  first = Some (wait, WsText (TwJson (EvStart (Some s)))) ->
  wait < RECEIVE_TIMEOUT_MS ->
  s_streamSid s = Some sid ->
  sid <> "" ->
  h_state (handle_media_stream connections first outcome) = Some st ->
  stream_sid (final (receive_from_twilio connections [] st)) = Some sid
  /\ latest_media_timestamp (final (receive_from_twilio connections [] st)) = 0
  /\ on_deepgram_binary audio (final (receive_from_twilio connections [] st))
     = (set_mark_queue [ "responsePart" ]
          (set_speech_started false (final (receive_from_twilio connections [] st))),
        forwarded (Some sid) audio).
Proof.
  intros -> Hwait Hsid Hne. unfold handle_media_stream, initialize_connection_state.
  apply Z.ltb_lt in Hwait. rewrite Hwait.
  assert (Hrun : forall st0,
    start_data st0 = Some (EvStart (Some s)) ->
    connection_active st0 = true ->
    mark_queue st0 = [] ->
    stream_sid (final (receive_from_twilio connections [] st0)) = Some sid
    /\ latest_media_timestamp (final (receive_from_twilio connections [] st0)) = 0
    /\ on_deepgram_binary audio (final (receive_from_twilio connections [] st0))
       = (set_mark_queue [ "responsePart" ]
            (set_speech_started false (final (receive_from_twilio connections [] st0))),
          forwarded (Some sid) audio)).
  { intros st0 Hdata Hactive Hmarks. unfold receive_from_twilio.
    rewrite Hdata, Hsid. rewrite twilio_loop_nil by exact Hactive. cbn [final].
    split; [reflexivity|]. split; [reflexivity|].
    rewrite on_deepgram_binary_streaming by (now apply truthy_nonempty).
    cbn [mark_queue set_latest_media_timestamp set_stream_sid stream_sid].
    now rewrite Hmarks. }
  destruct (lookup_call _ connections) as [cd|]; [destruct (phone cd)|];
    cbn [h_state]; intros [= <-]; apply Hrun; reflexivity.
Qed.

Lemma stream_id_from_start_message_witness :
  stream_sid (final (receive_from_twilio ∅ []
                       (set_start_data
                          (Some (EvStart (Some {| s_streamSid := Some "MZ1";
                                                  s_callSid := Some "CA1" |})))
                          (set_call_sid (Some "CA1") initial_state))))
  = Some "MZ1".
Proof.
  apply (stream_id_from_start_message ∅
           (Some (0, WsText (TwJson (EvStart (Some {| s_streamSid := Some "MZ1";
                                                      s_callSid := Some "CA1" |})))))
           (fun _ => Connected true) 0
           {| s_streamSid := Some "MZ1"; s_callSid := Some "CA1" |} "MZ1" _ []).
  - reflexivity.
  - reflexivity.
  - reflexivity.
  - discriminate.
  - reflexivity.
Defined.
